(** * nefarious.utils: torrent candidate resolution and media path naming

    A shallow embedding of [src/nefarious/utils.py] and the properties
    of its four components: the locator resolver ([swap_jackett_host],
    [trace_torrent_url]), the result filter ([results_with_valid_urls]),
    the ranker ([get_best_torrent_result]) and the path namer
    ([get_media_new_name_and_path]). *)

From Stdlib Require Import ZArith Ascii String Bool Lia.
From stdpp Require Import base option list functions strings pretty.

Local Open Scope string_scope.
Local Open Scope Z_scope.
Local Open Scope list_scope.
Local Open Scope stdpp_scope.

(** ** Ranking: [get_best_torrent_result] *)

Module Ranker.
Section Ranker.
(** A result is any object that answers [result['Seeders']] with an
    integer; the ranker reads nothing else. *)
Context {A : Type} (Seeders : A → Z).

(** The loop body: [if result['Seeders'] > best_result['Seeders']:
    best_result = result]. *)
Definition better (best_result result : A) : A :=
  if Seeders result >? Seeders best_result then result else best_result.

(** [if results:] takes the first element as the running best and
    scans the whole list (the first element included) from the left;
    an empty list yields [None]. *)
Definition get_best_torrent_result (results : list A) : option A :=
  match results with
  | [] => None
  | first :: _ => Some (fold_left better results first)
  end.

(** [first_max R i r]: [r] sits at index [i] of [R], no element has
    more seeders, and every element before index [i] has strictly
    fewer. *)
Definition first_max (R : list A) (i : nat) (r : A) : Prop :=
  R !! i = Some r
  ∧ (∀ x, x ∈ R → Seeders x <= Seeders r)
  ∧ (∀ j x, (j < i)%nat → R !! j = Some x → Seeders x < Seeders r).

End Ranker.
End Ranker.

(** ** Strings

    Python strings are modelled by [string]; each [ascii] is read as one
    character with code below 256.  The helpers below are the string
    primitives the source and the library functions it calls rely on
    ([str.find], [str.split(c, 1)], [in], [str.replace(c, "")],
    [str.lstrip], [str.lower], [str.startswith]). *)

Module Str.

(** [c in s] for a class of characters [p]. *)
Fixpoint has (p : ascii → bool) (s : string) : bool :=
  match s with
  | "" => false
  | String c s' => p c || has p s'
  end.

(** Every character of [s] is in the class [p]. *)
Fixpoint all (p : ascii → bool) (s : string) : bool :=
  match s with
  | "" => true
  | String c s' => p c && all p s'
  end.

(** [break_at p s = (s[:i], s[i:])] for the first index [i] whose
    character is in [p], and [(s, "")] when there is none
    ([s.find] returning [-1]). *)
Fixpoint break_at (p : ascii → bool) (s : string) : string * string :=
  match s with
  | "" => ("", "")
  | String c s' =>
      if p c then ("", s)
      else let '(a, b) := break_at p s' in (String c a, b)
  end.

(** [rbreak_at p s = (s[:i], s[i:])] for the last index [i] whose
    character is in [p] ([s.rfind]), and [("", s)] when there is none. *)
Fixpoint rbreak_at (p : ascii → bool) (s : string) : string * string :=
  match s with
  | "" => ("", "")
  | String c s' =>
      let '(h, t) := rbreak_at p s' in
      match t with
      | String d _ => if p d then (String c h, t) else ("", s)
      | "" => ("", s)
      end
  end.

(** [s.replace(c, "")] for every [c] in the class [p]. *)
Fixpoint remove (p : ascii → bool) (s : string) : string :=
  match s with
  | "" => ""
  | String c s' => if p c then remove p s' else String c (remove p s')
  end.

(** [s.lstrip(chars)] for the class [p]. *)
Fixpoint lstrip (p : ascii → bool) (s : string) : string :=
  match s with
  | "" => ""
  | String c s' => if p c then lstrip p s' else s
  end.

(** [s[1:]]. *)
Definition tail (s : string) : string :=
  match s with "" => "" | String _ s' => s' end.

Definition map (f : ascii → ascii) : string → string :=
  fix go s := match s with "" => "" | String c s' => String (f c) (go s') end.

(** [s.startswith(t)]. *)
Definition startswith (s t : string) : bool := String.prefix t s.

(** [s.endswith(t)] for a one-character [t]. *)
Fixpoint ends_in (c : ascii) (s : string) : bool :=
  match s with
  | "" => false
  | String d "" => bool_decide (d = c)
  | String _ s' => ends_in c s'
  end.

Definition code (c : ascii) : N := N_of_ascii c.

Definition between (lo hi c : ascii) : bool :=
  (code lo <=? code c)%N && (code c <=? code hi)%N.

Definition is_char (c d : ascii) : bool := bool_decide (d = c).

(** [c.isascii()]. *)
Definition isascii (c : ascii) : bool := (code c <? 128)%N.

Definition is_upper (c : ascii) : bool := between "A" "Z" c.
Definition is_lower (c : ascii) : bool := between "a" "z" c.
Definition is_digit (c : ascii) : bool := between "0" "9" c.

(** [c.isascii() and c.isalpha()]. *)
Definition is_ascii_alpha (c : ascii) : bool := is_upper c || is_lower c.

(** [str.lower] on one character; only the ASCII capitals move. *)
Definition lower_char (c : ascii) : ascii :=
  if is_upper c then ascii_of_N (code c + 32) else c.

Definition lower : string → string := map lower_char.

End Str.

(** ** URL parsing and the host rewrite: [swap_jackett_host] *)

Module Url.

(** The six components [urllib.parse.urlparse] returns. *)
Record ParseResult := mkParseResult {
  scheme : string;
  netloc : string;
  path : string;
  params : string;
  query : string;
  fragment : string;
}.

(** Modelled from the spec: the class [NefariousSettings] of
    [nefarious.models] is declared outside [utils.py]; the resolver
    reads its indexer host (a string) and port (an integer) only. *)
Record NefariousSettings := mkSettings {
  jackett_host : string;
  jackett_port : Z;
}.

(** [_WHATWG_C0_CONTROL_OR_SPACE]: the characters [urlsplit] strips
    from the left of the URL. *)
Definition is_c0_or_space (c : ascii) : bool := (Str.code c <=? 32)%N.

(** [_UNSAFE_URL_BYTES_TO_REMOVE]: tab, carriage return, line feed. *)
Definition is_unsafe (c : ascii) : bool :=
  Str.is_char "009" c || Str.is_char "013" c || Str.is_char "010" c.

(** [scheme_chars]: ASCII letters, digits and [+-.]. *)
Definition is_scheme_char (c : ascii) : bool :=
  Str.is_ascii_alpha c || Str.is_digit c
  || Str.is_char "+" c || Str.is_char "-" c || Str.is_char "." c.

(** The delimiters [_splitnetloc] looks for. *)
Definition is_netloc_delim (c : ascii) : bool :=
  Str.is_char "/" c || Str.is_char "?" c || Str.is_char "#" c.

(** [uses_params]. *)
Definition uses_params : list string :=
  [""; "ftp"; "hdl"; "prospero"; "http"; "imap"; "https"; "shttp";
   "rtsp"; "rtspu"; "sip"; "sips"; "mms"; "sftp"; "tel"].

(** The scan for a scheme: [i = url.find(':')]; when [i > 0], the
    first character is an ASCII letter and all of [url[:i]] are scheme
    characters, the scheme is [url[:i].lower()] and the URL continues
    after the colon; otherwise the scheme stays empty. *)
Definition split_scheme (url : string) : string * string :=
  let '(pre, rest) := Str.break_at (Str.is_char ":") url in
  match pre, rest with
  | String c0 _, String _ rest' =>
      if Str.is_ascii_alpha c0 && Str.all is_scheme_char pre
      then (Str.lower pre, rest')
      else ("", url)
  | _, _ => ("", url)
  end.

(** [if url[:2] == '//': netloc, url = _splitnetloc(url, 2)]. *)
Definition split_netloc (url : string) : string * string :=
  match url with
  | String "/" (String "/" url') => Str.break_at is_netloc_delim url'
  | _ => ("", url)
  end.

(** [url, rest = url.split(c, 1)] when [c in url]; the second
    component stays empty otherwise. *)
Definition split_once (c : ascii) (url : string) : string * string :=
  let '(a, b) := Str.break_at (Str.is_char c) url in (a, Str.tail b).

(** [netloc.partition('[')[2].partition(']')[0]]. *)
Definition bracketed_host (netloc : string) : string :=
  fst (Str.break_at (Str.is_char "]")
         (Str.tail (snd (Str.break_at (Str.is_char "[") netloc)))).

(** [_splitparams], called when [';' in url]: the parameters start at
    the first [;] of the last path segment. *)
Definition splitparams (url : string) : string * string :=
  let '(h, t) := Str.rbreak_at (Str.is_char "/") url in
  let '(a, b) := Str.break_at (Str.is_char ";") t in
  match b with
  | "" => (url, "")
  | String _ b' => (h +:+ a, b')
  end.

(** A path is rooted when it is empty or starts with a slash, as
    every path that follows a netloc is. *)
Definition rooted (path : string) : bool :=
  match path with "" => true | String c _ => Str.is_char "/" c end.

Section Parse.
(** Two checks of [urlsplit] live in other standard modules and are
    left open: [_check_bracketed_host] ([ipaddress]) and the NFKC test
    of [_checknetloc] ([unicodedata]), which runs on a netloc with a
    non-ASCII character.  Each answers whether the check passes; a
    failed check is the [ValueError] of [urlsplit]. *)
Context (check_bracketed_host : string → bool) (nfkc_ok : string → bool).

(** The IPv6 bracket test of [urlsplit]. *)
Definition brackets_ok (netloc : string) : bool :=
  match Str.has (Str.is_char "[") netloc, Str.has (Str.is_char "]") netloc with
  | true, true => check_bracketed_host (bracketed_host netloc)
  | false, false => true
  | _, _ => false
  end.

(** [_checknetloc]. *)
Definition checknetloc (netloc : string) : bool :=
  match netloc with
  | "" => true
  | _ => Str.all Str.isascii netloc || nfkc_ok netloc
  end.

(** [urllib.parse.urlsplit(url)] as of CPython 3.12, with the default
    [scheme=''] and [allow_fragments=True]; [None] is [ValueError]. *)
Definition urlsplit (url : string) : option ParseResult :=
  let url := Str.lstrip is_c0_or_space url in
  let url := Str.remove is_unsafe url in
  let '(scheme, url) := split_scheme url in
  let '(netloc, url) := split_netloc url in
  if negb (brackets_ok netloc) then None else
  let '(url, fragment) := split_once "#" url in
  let '(url, query) := split_once "?" url in
  if negb (checknetloc netloc) then None else
  Some (mkParseResult scheme netloc url "" query fragment).

(** [urllib.parse.urlparse(url)]. *)
Definition urlparse (url : string) : option ParseResult :=
  match urlsplit url with
  | None => None
  | Some r =>
      if bool_decide (scheme r ∈ uses_params) && Str.has (Str.is_char ";") (path r)
      then let '(url, params) := splitparams (path r) in
           Some (mkParseResult (scheme r) (netloc r) url params (query r) (fragment r))
      else Some r
  end.

(** ['{}://{}:{}{}?{}'.format(scheme, host, port, path, query)]. *)
Definition format_url (scheme host : string) (port : Z) (path query : string) : string :=
  scheme +:+ "://" +:+ host +:+ ":" +:+ pretty port +:+ path +:+ "?" +:+ query.

(** The netloc the rewrite writes: [host:port]. *)
Definition netloc_of (nefarious_settings : NefariousSettings) : string :=
  jackett_host nefarious_settings +:+ ":" +:+ pretty (jackett_port nefarious_settings).

(** The configured host is plain when it has no URL delimiter and no
    character that [urlsplit] removes, and [host:port] passes the two
    netloc checks. *)
Definition plain_host (nefarious_settings : NefariousSettings) : bool :=
  negb (Str.has is_netloc_delim (jackett_host nefarious_settings))
  && negb (Str.has is_unsafe (jackett_host nefarious_settings))
  && brackets_ok (netloc_of nefarious_settings)
  && checknetloc (netloc_of nefarious_settings).

(** [swap_jackett_host(url, nefarious_settings)]; [None] when
    [urlparse] raises. *)
Definition swap_jackett_host (url : string) (nefarious_settings : NefariousSettings)
  : option string :=
  match urlparse url with
  | None => None
  | Some parsed =>
      Some (format_url (scheme parsed) (jackett_host nefarious_settings)
              (jackett_port nefarious_settings) (path parsed) (query parsed))
  end.

End Parse.
End Url.

(** ** Exceptions *)

(** The exceptions the modelled code raises or lets through:
    [Exception(msg)] raised by the source itself, [ValueError] from
    [urlparse], a [requests] failure (connection error or timeout) and
    [KeyError] from a missing header. *)
Inductive exn :=
| Exception (msg : string)
| ValueError
| RequestException
| KeyError.

(** The outcome of a call: a value or a raised exception. *)
Inductive res (A : Type) :=
| Ok (a : A)
| Raise (e : exn).
Arguments Ok {A} a.
Arguments Raise {A} e.

(** ** Naming: [get_media_new_name_and_path] *)

Module Namer.

(** Modelled from the spec: the watch-media classes of
    [nefarious.models] are declared outside [utils.py].  A movie has a
    title (its
    [str()]) and a release year; a season has its show's title and a
    season number; an episode has its show's title, a season number
    and an episode number. *)
Record WatchMovie := mkMovie {
  movie_title : string;
  release_year : Z;
}.

Record WatchTVSeason := mkSeason {
  season_show : string;
  season_number : Z;
}.

Record WatchTVEpisode := mkEpisode {
  episode_show : string;
  episode_season_number : Z;
  episode_number : Z;
}.

(** The [isinstance] tests distinguish three classes; anything else
    is [OtherMedia]. *)
Inductive WatchMedia :=
| Movie (m : WatchMovie)
| TVSeason (s : WatchTVSeason)
| TVEpisode (e : WatchTVEpisode)
| OtherMedia.

(** [n] copies of ["0"]. *)
Fixpoint zeros (n : nat) : string :=
  match n with O => "" | S n' => String "0" (zeros n') end.

(** ['{:0Wd}'.format(n)]: the sign first, then zeros up to the width
    [W], then the decimal digits. *)
Definition format_0d (width : nat) (n : Z) : string :=
  let digits := pretty (Z.abs n) in
  if n <? 0
  then "-" +:+ zeros (width - 1 - String.length digits) +:+ digits
  else zeros (width - String.length digits) +:+ digits.

(** ['{:02d}'.format(n)]. *)
Definition format_02d : Z → string := format_0d 2.

(** The spec's words for the same: the number "zero-padded to 2
    digits". *)
Definition zero_padded_2 (n : Z) : string :=
  if n <? 10 then "0" +:+ pretty n else pretty n.

(** [os.path.join(a, b)] of [posixpath]. *)
Definition os_path_join (a b : string) : string :=
  if Str.startswith b "/" then b
  else if bool_decide (a = "") || Str.ends_in "/" a then a +:+ b
  else a +:+ "/" +:+ b.

Section Extension.
(** [\w] on a [str] pattern is Unicode-aware: beyond ASCII the word
    characters are given by the character database, left open here. *)
Context (word_beyond_ascii : ascii → bool).

(** [\w]. *)
Definition is_word (c : ascii) : bool :=
  if Str.isascii c
  then Str.is_ascii_alpha c || Str.is_digit c || Str.is_char "_" c
  else word_beyond_ascii c.

(** [\w+$] tried right after a dot: the longest run of word
    characters, which must be non-empty and must stop where [$]
    matches, at the end of the string or just before a line feed that
    ends the string.  A shorter run cannot help, the next character
    being a word character.  The result is the run. *)
Definition match_word_run (s : string) : option string :=
  let '(w, rest) := Str.break_at (λ c, negb (is_word c)) s in
  match w with
  | "" => None
  | _ => if bool_decide (rest = "") || bool_decide (rest = String "010" "")
         then Some w else None
  end.

(** [regex.search(r'(\.\w+)$', s)] and [.group()] of the match: the
    pattern is tried at each position from the left. *)
Fixpoint search_extension (s : string) : option string :=
  match s with
  | "" => None
  | String c s' =>
      match (if Str.is_char "." c then match_word_run s' else None) with
      | Some w => Some (String "." w)
      | None => search_extension s'
      end
  end.

(** The bare label and the directory of each media class. *)
Definition media_label (watch_media : WatchMedia) : res (string * string) :=
  match watch_media with
  | Movie m =>
      let name := movie_title m +:+ " (" +:+ pretty (release_year m) +:+ ")" in
      Ok (name, name)
  | TVSeason season =>
      Ok ("Season " +:+ format_02d (season_number season), season_show season)
  | TVEpisode episode =>
      Ok ("S" +:+ format_02d (episode_season_number episode)
            +:+ "E" +:+ format_02d (episode_number episode),
          os_path_join (episode_show episode)
            ("Season " +:+ format_02d (episode_season_number episode)))
  | OtherMedia => Raise (Exception "unknown media")
  end.

(** [get_media_new_name_and_path(watch_media, torrent_name,
    is_single_file)]. *)
Definition get_media_new_name_and_path (watch_media : WatchMedia)
    (torrent_name : string) (is_single_file : bool) : res (string * string) :=
  match media_label watch_media with
  | Raise e => Raise e
  | Ok (name, dir_name) =>
      if is_single_file then
        match search_extension torrent_name with
        | Some extension => Ok (name +:+ extension, dir_name)
        | None => Ok (name, dir_name)
        end
      else Ok (name, dir_name)
  end.

End Extension.
End Namer.

(** ** Resolution and filtering: [trace_torrent_url],
    [results_with_valid_urls] *)

Module Filter.

(** A search result is the JSON object of the indexer's answer, a
    Python [dict] with the keys [Title], [Link], [MagnetUri] (a
    string, or [None] for JSON [null]) and [Seeders]; the filter adds
    the key [torrent_url], absent ([None] here) until then. *)
Record result := mkResult {
  Title : string;
  Link : string;
  MagnetUri : option string;
  Seeders : Z;
  torrent_url : option string;
}.

(** [result['torrent_url'] = url] on the value of a result. *)
Definition with_torrent_url (url : string) (r : result) : result :=
  mkResult (Title r) (Link r) (MagnetUri r) (Seeders r) (Some url).

(** The results are objects shared with the caller: a list of results
    is a list of references into a heap of result objects, and the
    same reference may occur more than once. *)
Abbreviation loc := nat (only parsing).
Abbreviation heap := (loc → result) (only parsing).

(** What [requests.get] returns, as far as the source reads it: the
    status code, the [Location] header when there is one, and the
    body. *)
Record response := mkResponse {
  status_code : Z;
  location : option string;
  content : string;
}.

(** [response.ok] of [requests]: no status from 400 to 599. *)
Definition ok (r : response) : bool :=
  negb ((400 <=? status_code r) && (status_code r <? 600)).

(** [response.is_redirect] of [requests]: a [Location] header and one
    of the redirect statuses. *)
Definition is_redirect (r : response) : bool :=
  match location r with
  | Some _ => bool_decide (status_code r ∈ [301; 302; 303; 307; 308])
  | None => false
  end.

(** The network answers a request with a response or fails (no
    connection, timeout). *)
Inductive outcome :=
| Failed
| Answered (r : response).

(** The state the filter runs in: the heap of result objects and the
    URLs requested so far, oldest first. *)
Record world := mkWorld {
  objects : heap;
  requested : list string;
}.

(** Computations that read and change the world and may raise. *)
Definition M (A : Type) : Type := world → res A * world.

Definition ret {A} (a : A) : M A := λ w, (Ok a, w).

Definition bind {A B} (m : M A) (k : A → M B) : M B := λ w,
  match m w with
  | (Ok a, w') => k a w'
  | (Raise e, w') => (Raise e, w')
  end.

Definition raise {A} (e : exn) : M A := λ w, (Raise e, w).

(** [try: m  except Exception: ...]: the outcome of [m] as a value;
    what [m] did to the world before raising stays done. *)
Definition try {A} (m : M A) : M (res A) := λ w,
  let '(r, w') := m w in (Ok r, w').

Notation "'let*' x ':=' m 'in' k" := (bind m (λ x, k))
  (at level 10, x name, m at level 100, k at level 200).

(** [url.startswith('magnet:')]. *)
Definition is_magnet_url (url : string) : bool := Str.startswith url "magnet:".

(** [result[...]] reads the object behind the reference. *)
Definition read (l : loc) : M result := λ w, (Ok (objects w l), w).

(** [result['torrent_url'] = url] updates the object in place. *)
Definition assign_torrent_url (l : loc) (url : string) : M unit := λ w,
  (Ok tt, mkWorld (alter (with_torrent_url url) l (objects w)) (requested w)).

Section Network.
(** The network is an oracle: what a GET of a URL yields, given the
    URLs requested before it.  The two open checks of [urlparse] come
    along. *)
Context (server : list string → string → outcome).
Context (check_bracketed_host : string → bool) (nfkc_ok : string → bool).

(** [requests.get(url, allow_redirects=False, timeout=30)]. *)
Definition requests_get (url : string) : M response := λ w,
  let w' := mkWorld (objects w) (requested w ++ [url]) in
  match server (requested w) url with
  | Failed => (Raise RequestException, w')
  | Answered r => (Ok r, w')
  end.

(** [trace_torrent_url(url)]. *)
Definition trace_torrent_url (url : string) : M string :=
  if is_magnet_url url then ret url
  else
    let* response := requests_get url in
    if negb (ok response) then raise (Exception (content response))
    else if is_redirect response then
      match location response with
      | None => raise KeyError
      | Some target => if is_magnet_url target then ret target else ret url
      end
    else ret url.

(** [swap_jackett_host] with the [ValueError] of [urlparse] raised. *)
Definition swap_jackett_host (url : string) (nefarious_settings : Url.NefariousSettings)
  : M string :=
  match Url.swap_jackett_host check_bracketed_host nfkc_ok url nefarious_settings with
  | Some url' => ret url'
  | None => raise ValueError
  end.

(** The right-hand side [result['MagnetUri'] or
    trace_torrent_url(swap_jackett_host(result['Link'],
    nefarious_settings))]: a non-empty magnet string is the value, an
    empty one or [None] falls to the second operand. *)
Definition resolve (l : loc) (nefarious_settings : Url.NefariousSettings) : M string :=
  let* result := read l in
  match MagnetUri result with
  | Some (String c m) => ret (String c m)
  | _ =>
      let* result := read l in
      let* url := swap_jackett_host (Link result) nefarious_settings in
      trace_torrent_url url
  end.

(** The body of the [try]: the right-hand side first, the assignment
    after it. *)
Definition annotate (l : loc) (nefarious_settings : Url.NefariousSettings) : M unit :=
  let* url := resolve l nefarious_settings in
  assign_torrent_url l url.

(** The [for] loop with its accumulator [populated_results]: on an
    exception the candidate is skipped ([continue]), otherwise it is
    appended. *)
Fixpoint filter_loop (results : list loc) (nefarious_settings : Url.NefariousSettings)
    (populated_results : list loc) : M (list loc) :=
  match results with
  | [] => ret populated_results
  | result :: rest =>
      let* r := try (annotate result nefarious_settings) in
      match r with
      | Raise _ => filter_loop rest nefarious_settings populated_results
      | Ok _ => filter_loop rest nefarious_settings (populated_results ++ [result])
      end
  end.

(** [results_with_valid_urls(results, nefarious_settings)]. *)
Definition results_with_valid_urls (results : list loc)
    (nefarious_settings : Url.NefariousSettings) : M (list loc) :=
  filter_loop results nefarious_settings [].

End Network.
End Filter.

(** * Properties *)

(** ** Facts about the string primitives *)

Module StrFacts.
Import Str.

Lemma app_cons c s t : String c s +:+ t = String c (s +:+ t).
Proof. reflexivity. Qed.

Lemma app_nil_l s : "" +:+ s = s.
Proof. reflexivity. Qed.

Lemma app_nil_r s : s +:+ "" = s.
Proof. induction s as [|c s IH]; [done|]. by rewrite app_cons, IH. Qed.

Lemma app_assoc s t u : (s +:+ t) +:+ u = s +:+ t +:+ u.
Proof. induction s as [|c s IH]; [done|]. by rewrite !app_cons, IH. Qed.

Lemma app_eq_nil s t : s +:+ t = "" → s = "" ∧ t = "".
Proof. destruct s; [done|]. rewrite app_cons. discriminate. Qed.

Lemma has_app p s t : has p (s +:+ t) = has p s || has p t.
Proof.
  induction s as [|c s IH]; [done|].
  rewrite app_cons. cbn [has]. rewrite IH. by rewrite orb_assoc.
Qed.

Lemma all_app p s t : all p (s +:+ t) = all p s && all p t.
Proof.
  induction s as [|c s IH]; [done|].
  rewrite app_cons. cbn [all]. rewrite IH. by rewrite andb_assoc.
Qed.

Lemma has_false_all p s : has p s = false ↔ all (λ c, negb (p c)) s = true.
Proof.
  induction s as [|c s IH]; [done|]. cbn [has all].
  rewrite orb_false_iff, andb_true_iff, negb_true_iff. tauto.
Qed.

Lemma all_impl (p q : ascii → bool) s :
  (∀ c, p c = true → q c = true) → all p s = true → all q s = true.
Proof.
  intros Hpq. induction s as [|c s IH]; [done|]. cbn [all].
  rewrite !andb_true_iff. intros [??]. auto.
Qed.

Lemma has_tail p s : has p s = false → has p (tail s) = false.
Proof. destruct s; [done|]. cbn [has tail]. by intros [_ ?]%orb_false_iff. Qed.

(** What [break_at] returns: the two parts make up the string, the
    first has no character of the class, and the second is empty or
    starts with one. *)
Lemma break_at_spec p s a b :
  break_at p s = (a, b) →
  s = a +:+ b ∧ has p a = false
  ∧ match b with "" => True | String c _ => p c = true end.
Proof.
  revert a b. induction s as [|c s IH]; intros a b.
  - by intros [= <- <-].
  - cbn [break_at]. destruct (p c) eqn:Hc.
    + by intros [= <- <-].
    + destruct (break_at p s) as [a' b'] eqn:Hs. intros [= <- <-].
      destruct (IH _ _ eq_refl) as (-> & Ha & Hb).
      cbn [has]. by rewrite Hc, Ha.
Qed.

(** Conversely those three facts determine the split. *)
Lemma break_at_app p a b :
  has p a = false →
  match b with "" => True | String c _ => p c = true end →
  break_at p (a +:+ b) = (a, b).
Proof.
  intros Ha Hb. induction a as [|c a IH].
  - rewrite app_nil_l. destruct b as [|d b]; [done|]. cbn [break_at]. by rewrite Hb.
  - cbn [has] in Ha. apply orb_false_iff in Ha as [Hc Ha].
    rewrite app_cons. cbn [break_at]. by rewrite Hc, IH.
Qed.

Lemma break_at_none p s : has p s = false → break_at p s = (s, "").
Proof. intros H. rewrite <- (app_nil_r s) at 1. by apply break_at_app. Qed.

Lemma break_at_has p s : has p s = true → ∃ c b, snd (break_at p s) = String c b.
Proof.
  induction s as [|c s IH]; [done|]. cbn [has break_at].
  destruct (p c); [by eauto|]. cbn [orb]. intros Hs.
  destruct (IH Hs) as (d & b & Hb). destruct (break_at p s). eauto.
Qed.

(** What [rbreak_at] returns. *)
Lemma rbreak_at_spec p s h t :
  rbreak_at p s = (h, t) →
  s = h +:+ t ∧ has p (tail t) = false
  ∧ (match t with String c _ => p c = true | "" => False end
     ∨ (h = "" ∧ has p s = false)).
Proof.
  revert h t. induction s as [|c s IH]; intros h t.
  - intros [= <- <-]. auto.
  - cbn [rbreak_at]. destruct (rbreak_at p s) as [h' t'] eqn:Hs.
    destruct (IH _ _ eq_refl) as (-> & Ht & Hcase).
    destruct t' as [|d t'].
    + intros [= <- <-]. rewrite app_nil_r in *.
      destruct Hcase as [[]|[-> Hno]]. rewrite app_nil_l.
      split; [done|]. cbn [tail]. split; [done|].
      cbn [has]. destruct (p c); [by left|by right].
    + destruct (p d) eqn:Hd.
      * intros [= <- <-]. rewrite app_cons. auto.
      * intros [= <- <-]. destruct Hcase as [Hcase|[-> Hno]]; [congruence|].
        rewrite app_nil_l in *. split; [done|]. cbn [tail]. split; [done|].
        cbn [has]. destruct (p c); [by left|by right].
Qed.

(** Conversely: a tail that starts with a character of the class and
    has no other determines the split. *)
Lemma rbreak_at_app p h c t :
  p c = true → has p t = false → rbreak_at p (h +:+ String c t) = (h, String c t).
Proof.
  intros Hc Ht. induction h as [|d h IH].
  - rewrite app_nil_l. cbn [rbreak_at].
    destruct (rbreak_at p t) as [h' t'] eqn:Hr.
    destruct (rbreak_at_spec _ _ _ _ Hr) as (Heq & _ & [Hcase|[-> _]]).
    + destruct t' as [|e t']; [done|].
      rewrite Heq, has_app in Ht. cbn [has] in Ht. rewrite Hcase in Ht.
      by rewrite orb_true_r in Ht.
    + destruct t' as [|e t']; [done|]. rewrite app_nil_l in Heq. subst t.
      cbn [has] in Ht. apply orb_false_iff in Ht as [-> _]. done.
  - rewrite app_cons. cbn [rbreak_at]. rewrite IH. by rewrite Hc.
Qed.

Lemma rbreak_at_none p s : has p s = false → rbreak_at p s = ("", s).
Proof.
  intros Hs. destruct (rbreak_at p s) as [h t] eqn:Hr.
  destruct (rbreak_at_spec _ _ _ _ Hr) as (Heq & _ & [Hcase|[-> _]]).
  - destruct t as [|c t]; [done|]. rewrite Heq, has_app in Hs.
    cbn [has] in Hs. rewrite Hcase in Hs. by rewrite orb_true_r in Hs.
  - by rewrite Heq.
Qed.

Lemma has_remove p s : has p (remove p s) = false.
Proof.
  induction s as [|c s IH]; [done|]. cbn [remove].
  destruct (p c) eqn:Hc; [done|]. cbn [has]. by rewrite Hc.
Qed.

Lemma remove_id p s : has p s = false → remove p s = s.
Proof.
  induction s as [|c s IH]; [done|]. cbn [has remove].
  intros [-> ?]%orb_false_iff. by rewrite IH.
Qed.

Lemma lstrip_id p c s : p c = false → lstrip p (String c s) = String c s.
Proof. intros H. cbn [lstrip]. by rewrite H. Qed.

Lemma map_map_id f s : (∀ c, f (f c) = f c) → map f (map f s) = map f s.
Proof. intros Hf. induction s as [|c s IH]; [done|]. cbn. by rewrite Hf, IH. Qed.

Lemma all_map p f s : (∀ c, p (f c) = p c) → all p (map f s) = all p s.
Proof. intros Hf. induction s as [|c s IH]; [done|]. cbn. by rewrite Hf, IH. Qed.

Lemma prefix_app s t : String.prefix s (s +:+ t) = true.
Proof.
  induction s as [|c s IH]; [by destruct t|].
  rewrite app_cons. cbn. by destruct (ascii_dec c c).
Qed.

Lemma prefix_nonempty s t : s ≠ "" → String.prefix s t = true → t ≠ "".
Proof. destruct s; [done|]. by destruct t. Qed.

End StrFacts.

(** ** The ranker *)

Module RankerFacts.
Import Ranker.
Section RankerFacts.
Context {A : Type} (Seeders : A → Z).
Abbreviation better := (better Seeders).
Abbreviation first_max := (first_max Seeders).
Abbreviation get_best_torrent_result := (get_best_torrent_result Seeders).

Lemma better_seeders b r :
  Seeders (better b r) = Z.max (Seeders b) (Seeders r).
Proof.
  unfold Ranker.better. destruct (Z.gtb_spec (Seeders r) (Seeders b)); lia.
Qed.

(** Scanning [l] after a prefix [pre] whose first maximum is [best]
    at index [i] ends on the first maximum of [pre ++ l]. *)
Lemma scan_first_max pre l i best :
  first_max pre i best →
  ∃ k, first_max (pre ++ l) k (fold_left better l best).
Proof.
  revert pre i best. induction l as [|x l IH]; intros pre i best Hfm.
  - exists i. by rewrite app_nil_r.
  - replace (pre ++ x :: l) with ((pre ++ [x]) ++ l)
      by (by rewrite <- app_assoc).
    destruct Hfm as (Hi & Hmax & Hlt). cbn [fold_left].
    unfold better at 2.
    destruct (Z.gtb_spec (Seeders x) (Seeders best)) as [Hgt|Hle].
    + apply (IH _ (length pre)). repeat split.
      * rewrite lookup_app_r by lia. by rewrite Nat.sub_diag.
      * intros y [Hy|Hy%list_elem_of_singleton]%elem_of_app; [|by subst].
        specialize (Hmax y Hy). lia.
      * intros j y Hj Hy. rewrite lookup_app_l in Hy by done.
        assert (y ∈ pre) as Hin by (apply list_elem_of_lookup; eauto).
        specialize (Hmax y Hin). lia.
    + apply (IH _ i). repeat split.
      * apply lookup_app_l_Some. done.
      * intros y [Hy|Hy%list_elem_of_singleton]%elem_of_app; [auto|].
        subst. lia.
      * intros j y Hj Hy. apply (Hlt j y Hj).
        apply lookup_lt_Some in Hi.
        rewrite lookup_app_l in Hy by lia. done.
Qed.

(** C1. [get_best_torrent_result] returns [None] exactly on the empty
    list; on any other list it returns the first element whose seeder
    count is the maximum: no element has more seeders than the result,
    and every element before it has strictly fewer. *)
Theorem get_best_torrent_result_first_max (R : list A) :
  (get_best_torrent_result R = None ↔ R = [])
  ∧ (∀ r, get_best_torrent_result R = Some r → ∃ i, first_max R i r).
Proof.
  destruct R as [|x l]; [by split|].
  split; [by split|]. intros r [= <-].
  destruct (scan_first_max [x] l 0%nat x) as [k Hk].
  - repeat split; [|intros j ??; lia].
    intros y ->%list_elem_of_singleton. lia.
  - exists k. cbn [fold_left]. unfold Ranker.better at 2.
    rewrite Z.gtb_ltb, Z.ltb_irrefl. exact Hk.
Qed.

End RankerFacts.

(** Two results tie on seven seeders: the earlier one is kept. *)
Example get_best_torrent_result_tie :
  Ranker.get_best_torrent_result snd [("a", 5); ("b", 7); ("c", 7); ("d", 2)]
  = Some ("b", 7).
Proof. reflexivity. Qed.

End RankerFacts.

(** ** The host rewrite *)

Module UrlFacts.
Import Str StrFacts Url.

Ltac by_cases_on_ascii c :=
  destruct c as [[] [] [] [] [] [] [] []]; vm_compute; try done; auto.

Lemma lower_char_idem c : lower_char (lower_char c) = lower_char c.
Proof. by_cases_on_ascii c. Qed.

Lemma is_scheme_char_lower c : is_scheme_char (lower_char c) = is_scheme_char c.
Proof. by_cases_on_ascii c. Qed.

Lemma is_ascii_alpha_lower c : is_ascii_alpha (lower_char c) = is_ascii_alpha c.
Proof. by_cases_on_ascii c. Qed.

Lemma scheme_char_no_colon c : is_scheme_char c = true → is_char ":" c = false.
Proof. by_cases_on_ascii c. Qed.

Lemma scheme_char_safe c : is_scheme_char c = true → is_unsafe c = false.
Proof. by_cases_on_ascii c. Qed.

Lemma alpha_not_stripped c : is_ascii_alpha c = true → is_c0_or_space c = false.
Proof. by_cases_on_ascii c. Qed.

(** The characters of a printed integer. *)
Definition is_int_char (c : ascii) : bool := is_digit c || is_char "-" c.

Lemma int_char_plain c :
  is_int_char c = true →
  is_netloc_delim c = false ∧ is_unsafe c = false ∧ isascii c = true
  ∧ is_char "[" c = false ∧ is_char "]" c = false.
Proof. by_cases_on_ascii c. Qed.

Lemma pretty_N_char_int x : is_int_char (pretty_N_char x) = true.
Proof. unfold pretty_N_char. by repeat case_match. Qed.

Lemma pretty_N_go_int x s :
  all is_int_char s = true → all is_int_char (pretty_N_go x s) = true.
Proof.
  revert s. induction (N.lt_wf_0 x) as [x _ IH]; intros s Hs.
  assert (x = 0 ∨ 0 < x)%N as [->|?] by lia; [done|].
  rewrite pretty_N_go_step by done. apply IH.
  - by apply N.div_lt.
  - cbn [all]. by rewrite pretty_N_char_int.
Qed.

Lemma pretty_N_int (x : N) : all is_int_char (pretty x) = true.
Proof.
  unfold pretty, pretty_N. case_decide; [done|]. by apply pretty_N_go_int.
Qed.

Lemma pretty_Z_int (x : Z) : all is_int_char (pretty x) = true.
Proof.
  destruct x as [|p|p]; [done|apply pretty_N_int|].
  change (pretty (Z.neg p)) with ("-" +:+ pretty (N.pos p)).
  rewrite all_app. by rewrite pretty_N_int.
Qed.

Lemma int_no p (x : Z) :
  (∀ c, is_int_char c = true → p c = false) → has p (pretty x) = false.
Proof.
  intros Hp. apply has_false_all.
  apply (all_impl is_int_char); [|apply pretty_Z_int].
  intros c Hc. by rewrite Hp.
Qed.

(** *** What [urlparse] returns *)

(** A scheme as [urlsplit] produces it: it starts with an ASCII
    letter, consists of scheme characters and is in lower case. *)
Definition scheme_wf (sc : string) : Prop :=
  ∃ c0 sc', sc = String c0 sc' ∧ is_ascii_alpha c0 = true
            ∧ all is_scheme_char sc = true ∧ lower sc = sc.

(** The shape of the scheme, path and query of a parsed URL. *)
Record canonical (sc pa q : string) : Prop := mkCanonical {
  can_scheme : scheme_wf sc;
  can_rooted : rooted pa = true;
  can_path_query : has (is_char "?") pa = false;
  can_path_fragment : has (is_char "#") pa = false;
  can_path_safe : has is_unsafe pa = false;
  can_params :
    bool_decide (sc ∈ uses_params) && has (is_char ";") pa = true →
    splitparams pa = (pa, "");
  can_query_fragment : has (is_char "#") q = false;
  can_query_safe : has is_unsafe q = false;
}.

Lemma split_scheme_spec u sc r :
  split_scheme u = (sc, r) →
  (sc = "" ∨ scheme_wf sc) ∧ ∀ p, has p u = false → has p r = false.
Proof.
  unfold split_scheme. destruct (break_at _ u) as [pre rest] eqn:Hb.
  destruct (break_at_spec _ _ _ _ Hb) as (-> & _ & _).
  destruct pre as [|c0 pre]; [intros [= <- <-]; auto|].
  destruct rest as [|c rest]; [intros [= <- <-]; auto|].
  destruct (is_ascii_alpha c0 && all is_scheme_char (String c0 pre)) eqn:Hc;
    [|intros [= <- <-]; auto].
  apply andb_true_iff in Hc as [Hc0 Hall]. intros [= <- <-]. split.
  - right. exists (lower_char c0), (lower pre). repeat split.
    + by rewrite is_ascii_alpha_lower.
    + change (all is_scheme_char (lower (String c0 pre)) = true).
      unfold lower. by rewrite all_map by apply is_scheme_char_lower.
    + change (lower (lower (String c0 pre)) = lower (String c0 pre)).
      apply map_map_id, lower_char_idem.
  - intros p. rewrite has_app. cbn [has].
    intros [_ [_ ?]%orb_false_iff]%orb_false_iff. done.
Qed.

Lemma split_netloc_spec u nl r :
  split_netloc u = (nl, r) → ∀ p, has p u = false → has p r = false.
Proof.
  unfold split_netloc. intros H p Hp.
  assert (break_at is_netloc_delim (tail (tail u)) = (nl, r) → has p r = false) as Hgo.
  { intros Hb. destruct (break_at_spec _ _ _ _ Hb) as (Heq & _ & _).
    apply has_tail, has_tail in Hp. rewrite Heq, has_app in Hp.
    by apply orb_false_iff in Hp as [_ ?]. }
  destruct u as [|c u]; [by injection H as <- <-|].
  destruct (decide (c = "/"%char)) as [->|Hne].
  - destruct u as [|d u]; [by injection H as <- <-|].
    destruct (decide (d = "/"%char)) as [->|Hne]; [by apply Hgo|].
    revert H. clear Hgo. by_cases_on_ascii d; intros [= <- <-]; done.
  - revert H. clear Hgo. by_cases_on_ascii c; intros [= <- <-]; done.
Qed.

Lemma split_once_spec c u a b :
  split_once c u = (a, b) →
  has (is_char c) a = false
  ∧ ∀ p, has p u = false → has p a = false ∧ has p b = false.
Proof.
  unfold split_once. destruct (break_at _ u) as [a' b'] eqn:Hb.
  intros [= <- <-]. destruct (break_at_spec _ _ _ _ Hb) as (-> & Ha & _).
  split; [done|]. intros p. rewrite has_app.
  intros [? ?]%orb_false_iff. split; [done|]. by apply has_tail.
Qed.

Lemma splitparams_spec pa pa' ps :
  splitparams pa = (pa', ps) →
  (has (is_char ";") pa' = true → splitparams pa' = (pa', ""))
  ∧ ∀ p, has p pa = false → has p pa' = false.
Proof.
  unfold splitparams at 1.
  destruct (rbreak_at _ pa) as [h t] eqn:Hr.
  destruct (break_at _ t) as [a b] eqn:Hb.
  destruct (break_at_spec _ _ _ _ Hb) as (Ht & Ha & Hb1).
  destruct (rbreak_at_spec _ _ _ _ Hr) as (Hpa & Htail & Hcase).
  destruct b as [|c b].
  - intros [= <- <-]. split; [|done]. intros _.
    unfold splitparams. rewrite Hr, Hb. done.
  - intros [= <- <-]. split.
    + destruct Hcase as [Hcase|[-> Hno]].
      * destruct t as [|d t]; [done|]. intros _.
        destruct a as [|e a].
        { rewrite app_nil_l in Ht. injection Ht as -> ->. revert Hcase Hb1.
          by_cases_on_ascii c. }
        rewrite app_cons in Ht. injection Ht as -> ->.
        cbn [tail] in Htail. rewrite has_app in Htail.
        apply orb_false_iff in Htail as [Ha' _].
        unfold splitparams. rewrite rbreak_at_app by done.
        rewrite break_at_none by done. done.
      * rewrite app_nil_l. congruence.
    + intros p. rewrite Hpa, Ht, !has_app.
      intros [? [? _]%orb_false_iff]%orb_false_iff. by rewrite orb_false_iff.
Qed.

Section ParseFacts.
Context (check_bracketed_host : string → bool) (nfkc_ok : string → bool).
Abbreviation urlsplit := (urlsplit check_bracketed_host nfkc_ok).
Abbreviation urlparse := (urlparse check_bracketed_host nfkc_ok).
Abbreviation plain_host := (plain_host check_bracketed_host nfkc_ok).
Abbreviation swap_jackett_host := (swap_jackett_host check_bracketed_host nfkc_ok).

(** The scheme, path and query [urlparse] returns are canonical as
    soon as the scheme is not empty and the path is rooted. *)
Lemma urlparse_canonical u p :
  urlparse u = Some p → scheme p ≠ "" → rooted (path p) = true →
  canonical (scheme p) (path p) (query p).
Proof.
  unfold Url.urlparse, Url.urlsplit.
  set (u1 := remove is_unsafe (lstrip is_c0_or_space u)).
  assert (has is_unsafe u1 = false) as Hu1 by apply has_remove.
  destruct (split_scheme u1) as [sc u2] eqn:H2.
  destruct (split_scheme_spec _ _ _ H2) as (Hsc & Hu2).
  destruct (split_netloc u2) as [nl u3] eqn:H3.
  pose proof (split_netloc_spec _ _ _ H3) as Hu3.
  destruct (negb (brackets_ok _ nl)); [done|].
  destruct (split_once "#" u3) as [u4 fr] eqn:H4.
  destruct (split_once_spec _ _ _ _ H4) as (Hfr & Hu4).
  destruct (split_once "?" u4) as [pa q] eqn:H5.
  destruct (split_once_spec _ _ _ _ H5) as (Hq & Hu5).
  destruct (negb (checknetloc _ nl)); [done|]. cbn [scheme path query].
  assert (has is_unsafe pa = false ∧ has is_unsafe q = false) as [Hpa_s Hq_s].
  { apply Hu5, Hu4, Hu3, Hu2, Hu1. }
  assert (has (is_char "#") pa = false ∧ has (is_char "#") q = false)
    as [Hpa_f Hq_f] by (by apply Hu5).
  destruct (bool_decide (sc ∈ uses_params) && has (is_char ";") pa) eqn:Hcond.
  - destruct (splitparams pa) as [pa' ps] eqn:Hsp.
    destruct (splitparams_spec _ _ _ Hsp) as (Hstable & Hpa').
    intros [= <-]. cbn [scheme path query]. intros Hne Hroot.
    destruct Hsc as [->|Hsc]; [done|].
    split; auto. by intros [_ ?]%andb_true_iff; auto.
  - intros [= <-]. cbn [scheme path query]. intros Hne Hroot.
    destruct Hsc as [->|Hsc]; [done|].
    split; auto. rewrite Hcond. done.
Qed.

Lemma split_scheme_wf sc rest :
  scheme_wf sc → split_scheme (sc +:+ ":" +:+ rest) = (sc, rest).
Proof.
  intros (c0 & sc' & -> & Hc0 & Hall & Hlow). unfold split_scheme.
  rewrite (break_at_app _ _ (String ":" rest)); [|
    apply has_false_all; revert Hall; apply all_impl;
    intros c Hc; by rewrite scheme_char_no_colon | done].
  by rewrite Hc0, Hall, Hlow.
Qed.

Lemma rooted_delim pa q :
  rooted pa = true →
  match pa +:+ "?" +:+ q with "" => True | String c _ => is_netloc_delim c = true end.
Proof. destruct pa as [|c pa]; [done|]. rewrite app_cons. by_cases_on_ascii c. Qed.

(** Parsing a rewritten URL gives back the scheme, path and query it
    was written from, with [host:port] as netloc and neither
    parameters nor fragment. *)
Lemma urlparse_format sc pa q s :
  canonical sc pa q → plain_host s = true →
  urlparse (format_url sc (jackett_host s) (jackett_port s) pa q)
  = Some (mkParseResult sc (netloc_of s) pa "" q "").
Proof.
  intros [Hsc Hroot Hpq Hpf Hps Hpar Hqf Hqs] Hhost.
  unfold Url.plain_host in Hhost.
  apply andb_true_iff in Hhost as [[[Hhd Hhs]%andb_true_iff Hbr]%andb_true_iff Hchk].
  apply negb_true_iff in Hhd, Hhs.
  assert (has is_netloc_delim (netloc_of s) = false) as Hnd.
  { unfold netloc_of. rewrite !has_app, Hhd. cbn [has orb].
    apply int_no. intros c Hc. by apply int_char_plain. }
  assert (has is_unsafe (netloc_of s) = false) as Hns.
  { unfold netloc_of. rewrite !has_app, Hhs. cbn [has orb].
    apply int_no. intros c Hc. by apply int_char_plain. }
  assert (format_url sc (jackett_host s) (jackett_port s) pa q
          = sc +:+ ":" +:+ String "/" (String "/" (netloc_of s +:+ pa +:+ "?" +:+ q)))
    as ->.
  { unfold format_url, netloc_of. by rewrite !app_assoc. }
  unfold Url.urlparse, Url.urlsplit.
  assert (has is_unsafe sc = false) as Hscs.
  { destruct Hsc as (c0 & sc' & -> & _ & Hall & _). apply has_false_all.
    revert Hall. apply all_impl. intros c Hc. by rewrite scheme_char_safe. }
  rewrite remove_id.
  2:{ destruct Hsc as (c0 & sc' & -> & Hc0 & _).
      rewrite app_cons, lstrip_id by (by apply alpha_not_stripped).
      rewrite <- app_cons, !has_app, Hscs. cbn [has orb].
      rewrite !has_app, Hns, Hps, Hqs. done. }
  destruct Hsc as (c0 & sc' & -> & Hc0 & Hall & Hlow).
  rewrite app_cons, lstrip_id by (by apply alpha_not_stripped).
  rewrite <- app_cons.
  rewrite split_scheme_wf by (exists c0, sc'; auto).
  cbn [split_netloc].
  rewrite (break_at_app _ _ _ Hnd (rooted_delim pa q Hroot)).
  rewrite Hbr. cbn [negb].
  unfold split_once.
  rewrite (break_at_none (is_char "#")).
  2:{ rewrite !has_app, Hpf, Hqf. done. }
  cbn [tail].
  rewrite (break_at_app _ pa (String "?" q)) by done.
  cbn [tail]. rewrite Hchk. cbn [negb scheme path].
  destruct (bool_decide _ && has _ pa) eqn:Hcond; [|done].
  by rewrite Hpar.
Qed.

(** Rewriting a URL whose scheme is not empty and whose path is
    rooted, for a plain configured host, yields a URL that parses to
    the same scheme, path and query. *)
Lemma swap_then_parse u s p :
  urlparse u = Some p → scheme p ≠ "" → rooted (path p) = true →
  plain_host s = true →
  ∃ out, swap_jackett_host u s = Some out
    ∧ urlparse out = Some (mkParseResult (scheme p) (netloc_of s) (path p) "" (query p) "").
Proof.
  intros Hp Hsc Hroot Hhost. unfold Url.swap_jackett_host. rewrite Hp.
  eexists. split; [done|]. apply urlparse_format; [|done].
  by apply (urlparse_canonical u).
Qed.

(** The rewrite as the spec words it, at one URL: only host and port
    change, so the result parses to the components of the input with
    the netloc replaced by [host:port]. *)
Definition replaces_host_port_only (u : string) (s : NefariousSettings) : Prop :=
  ∀ p, urlparse u = Some p →
    ∃ out, swap_jackett_host u s = Some out
      ∧ urlparse out
        = Some (mkParseResult (scheme p) (netloc_of s) (path p) (params p)
                  (query p) (fragment p)).

(** Idempotence at one URL: rewriting the rewritten URL changes
    nothing. *)
Definition idempotent_at (u : string) (s : NefariousSettings) : Prop :=
  ∀ v, swap_jackett_host u s = Some v → swap_jackett_host v s = Some v.

(** C8, as amended.  For every URL that [urlparse] accepts and every
    settings, the rewrite returns [scheme://host:port], the path, [?]
    and the query, with the scheme, path and query [urlparse] finds in
    the URL and the configured host and port; parameters, fragment and
    the old netloc are not written.  When the scheme is not empty, the
    path is rooted and the configured host is plain, the result
    parses to the same scheme, path and query, with netloc [host:port]
    and empty parameters and fragment. *)
Theorem swap_jackett_host_rewrites u s p :
  urlparse u = Some p →
  swap_jackett_host u s
  = Some (scheme p +:+ "://" +:+ jackett_host s +:+ ":" +:+ pretty (jackett_port s)
            +:+ path p +:+ "?" +:+ query p)
  ∧ (scheme p ≠ "" → rooted (path p) = true → plain_host s = true →
     ∃ out, swap_jackett_host u s = Some out
       ∧ urlparse out
         = Some (mkParseResult (scheme p) (netloc_of s) (path p) "" (query p) "")).
Proof.
  intros Hp. split.
  - unfold Url.swap_jackett_host. by rewrite Hp.
  - intros. by apply swap_then_parse.
Qed.

(** C9, as amended.  For every URL that [urlparse] reads with a
    non-empty scheme and a rooted path, and settings with a plain
    host, rewriting twice gives what rewriting once gives, and the
    rewritten URL has the path and query of the original. *)
Theorem swap_jackett_host_idempotent u s p :
  urlparse u = Some p → scheme p ≠ "" → rooted (path p) = true →
  plain_host s = true →
  ∃ v q, swap_jackett_host u s = Some v
    ∧ swap_jackett_host v s = Some v
    ∧ urlparse v = Some q ∧ path q = path p ∧ query q = query p.
Proof.
  intros Hp Hsc Hroot Hhost.
  destruct (swap_then_parse u s p) as (v & Hv & Hq); [done..|].
  exists v, (mkParseResult (scheme p) (netloc_of s) (path p) "" (query p) "").
  repeat split; [done| |done].
  unfold Url.swap_jackett_host in *. rewrite Hp in Hv. by rewrite Hq.
Qed.

End ParseFacts.

(** The checks left open, answered "passes" for the examples. *)
Definition pass (_ : string) : bool := true.

Definition jackett : NefariousSettings := mkSettings "jackett" 9117.

(** C8 as stated fails at a URL with a fragment, which the rewrite
    drops, and at a relative URL, whose path the rewrite glues to the
    port. *)
Lemma swap_jackett_host_not_host_only :
  ¬ replaces_host_port_only pass pass
      "http://tracker.example:80/dl/a.torrent?k=1#top" jackett
  ∧ ¬ replaces_host_port_only pass pass "dl/a.torrent?k=1" jackett.
Proof.
  split; intros H.
  - destruct (H _ eq_refl) as (out & [= <-] & Hout). vm_compute in Hout. done.
  - destruct (H _ eq_refl) as (out & [= <-] & Hout). vm_compute in Hout. done.
Qed.

(** C9 as stated fails at a relative URL, and at a configured host
    that contains a slash. *)
Lemma swap_jackett_host_not_idempotent :
  ¬ idempotent_at pass pass "dl/a.torrent?k=1" jackett
  ∧ ¬ idempotent_at pass pass "http://tracker.example:80/dl/a.torrent?k=1"
        (mkSettings "server/jackett" 9117).
Proof.
  split; intros H.
  - specialize (H _ eq_refl). vm_compute in H. done.
  - specialize (H _ eq_refl). vm_compute in H. done.
Qed.

Lemma swap_jackett_host_rewrites_witness :
  swap_jackett_host pass pass "HTTP://tracker.example:80/dl/a.torrent;v=1?k=1#top" jackett
  = Some "http://jackett:9117/dl/a.torrent?k=1"
  ∧ urlparse pass pass "http://jackett:9117/dl/a.torrent?k=1"
    = Some (mkParseResult "http" "jackett:9117" "/dl/a.torrent" "" "k=1" "").
Proof.
  destruct (swap_jackett_host_rewrites pass pass
              "HTTP://tracker.example:80/dl/a.torrent;v=1?k=1#top" jackett
              (mkParseResult "http" "tracker.example:80" "/dl/a.torrent" "v=1" "k=1" "top")
              eq_refl) as [H1 H2].
  split; [exact H1|].
  destruct (H2 ltac:(done) eq_refl eq_refl) as (out & Hout & Hparse).
  rewrite H1 in Hout. injection Hout as <-. exact Hparse.
Defined.

Lemma swap_jackett_host_idempotent_witness :
  swap_jackett_host pass pass "http://tracker.example:80/dl/a.torrent?k=1#top" jackett
  = Some "http://jackett:9117/dl/a.torrent?k=1"
  ∧ swap_jackett_host pass pass "http://jackett:9117/dl/a.torrent?k=1" jackett
    = Some "http://jackett:9117/dl/a.torrent?k=1".
Proof.
  destruct (swap_jackett_host_idempotent pass pass
              "http://tracker.example:80/dl/a.torrent?k=1#top" jackett
              (mkParseResult "http" "tracker.example:80" "/dl/a.torrent" "" "k=1" "top")
              eq_refl ltac:(done) eq_refl eq_refl) as (v & q & Hv & Hvv & _).
  assert (v = "http://jackett:9117/dl/a.torrent?k=1") as ->.
  { vm_compute in Hv. by injection Hv. }
  by split.
Defined.

End UrlFacts.

(** ** The path namer *)

Module NamerFacts.
Import Str StrFacts Namer.

(** *** Zero padding *)

Lemma pretty_N_go_length x s :
  (String.length s ≤ String.length (pretty_N_go x s))%nat.
Proof.
  revert s. induction (N.lt_wf_0 x) as [x _ IH]; intros s.
  assert (x = 0 ∨ 0 < x)%N as [->|?] by lia; [done|].
  rewrite pretty_N_go_step by done.
  etrans; [|apply IH; by apply N.div_lt]. cbn. lia.
Qed.

Lemma pretty_length_ge_2 (n : Z) : 10 <= n → (2 ≤ String.length (pretty n))%nat.
Proof.
  intros Hn. destruct n as [|p|p]; [lia| |lia].
  change (pretty (Z.pos p)) with (pretty (N.pos p)).
  unfold pretty, pretty_N. case_decide; [done|].
  assert (10 ≤ N.pos p)%N by lia.
  rewrite 2!pretty_N_go_step by (try apply N.div_str_pos_iff; lia).
  etrans; [|apply pretty_N_go_length]. done.
Qed.

(** On a number that is not negative, ['{:02d}'] is the number
    zero-padded to two digits. *)
Lemma format_02d_zero_padded n : 0 <= n → format_02d n = zero_padded_2 n.
Proof.
  intros Hn. unfold format_02d, format_0d, zero_padded_2.
  rewrite Z.abs_eq by done.
  destruct (Z.ltb_spec n 0) as [?|_]; [lia|].
  destruct (Z.ltb_spec n 10) as [Hlt|Hge].
  - assert (n = 0 ∨ n = 1 ∨ n = 2 ∨ n = 3 ∨ n = 4 ∨ n = 5 ∨ n = 6
            ∨ n = 7 ∨ n = 8 ∨ n = 9) as Hcases by lia.
    repeat (destruct Hcases as [->|Hcases]; [done|]). by subst.
  - pose proof (pretty_length_ge_2 n Hge) as Hlen.
    replace (2 - String.length (pretty n))%nat with 0%nat by lia. done.
Qed.

(** *** The extension search *)

Section ExtensionFacts.
Context (word_beyond_ascii : ascii → bool).
Abbreviation is_word := (is_word word_beyond_ascii).
Abbreviation match_word_run := (match_word_run word_beyond_ascii).
Abbreviation search_extension := (search_extension word_beyond_ascii).
Abbreviation get_media_new_name_and_path :=
  (get_media_new_name_and_path word_beyond_ascii).

Definition line_feed : string := String "010" "".

(** [name] has the extension [ext], a dot followed by one or more
    word characters, right before its last part [tl]. *)
Definition extension_before (tl name ext : string) : Prop :=
  ∃ pre w, name = pre +:+ ext +:+ tl ∧ ext = "." +:+ w ∧ w ≠ ""
           ∧ all is_word w = true.

(** The spec's words: the name ends with a dot followed by one or more
    word characters at the end of the string. *)
Definition trailing_extension (name ext : string) : Prop :=
  extension_before "" name ext.

(** What [$] accepts: the extension at the end of the string, or just
    before a line feed that ends the string. *)
Definition extension_found (name ext : string) : Prop :=
  extension_before "" name ext ∨ extension_before line_feed name ext.

Lemma is_word_dot : is_word "." = false.
Proof. done. Qed.

Lemma is_word_line_feed : is_word "010" = false.
Proof. done. Qed.

Lemma match_word_run_hit w tl :
  w ≠ "" → all is_word w = true → tl = "" ∨ tl = line_feed →
  match_word_run (w +:+ tl) = Some w.
Proof.
  intros Hw Hall Htl. unfold Namer.match_word_run.
  rewrite break_at_app.
  - destruct w; [done|]. by destruct Htl as [-> | ->].
  - apply has_false_all. revert Hall. apply all_impl.
    intros c ->. done.
  - by destruct Htl as [-> | ->].
Qed.

(** A run that starts before a later dot stops at a character that is
    followed by more than [$] allows. *)
Lemma match_word_run_miss pre w tl :
  w ≠ "" → match_word_run (pre +:+ "." +:+ w +:+ tl) = None.
Proof.
  intros Hw. unfold Namer.match_word_run.
  destruct (break_at _ _) as [a b] eqn:Hb.
  assert (b ≠ "" ∧ b ≠ line_feed) as [H1 H2].
  { revert a Hb. induction pre as [|c pre IH]; intros a.
    - rewrite app_nil_l. change ("." +:+ w +:+ tl) with (String "." (w +:+ tl)).
      cbn [break_at]. rewrite is_word_dot. cbn [negb]. intros [= <- <-].
      split; [done|]. destruct w; [done|]. done.
    - rewrite app_cons. cbn [break_at]. destruct (negb (is_word c)).
      + intros [= <- <-]. split; [done|]. intros [= _ Habs].
        by apply app_eq_nil in Habs as [_ ?].
      + destruct (break_at _ (pre +:+ _)) as [a' b'] eqn:Hb'.
        intros [= <- <-]. by apply (IH a'). }
  destruct a; [done|].
  rewrite !bool_decide_eq_false_2 by done. done.
Qed.

(** [search_extension] finds an extension exactly when the name has
    one where [$] accepts it, and returns that extension. *)
Lemma search_extension_iff name ext :
  search_extension name = Some ext ↔ extension_found name ext.
Proof.
  split.
  - revert ext. induction name as [|c name IH]; [done|]. intros ext.
    cbn [Namer.search_extension].
    destruct (if is_char "." c then match_word_run name else None) as [w|] eqn:Hm.
    + intros [= <-]. destruct (is_char "." c) eqn:Hc; [|done].
      apply bool_decide_eq_true in Hc as ->.
      unfold Namer.match_word_run in Hm.
      destruct (break_at _ name) as [a b] eqn:Hb.
      destruct (break_at_spec _ _ _ _ Hb) as (-> & Ha & _).
      destruct a as [|a0 a]; [done|].
      assert (all is_word (String a0 a) = true) as Hall.
      { apply has_false_all in Ha. revert Ha. apply all_impl.
        intros d Hd. by apply negb_true_iff, negb_false_iff in Hd. }
      destruct (bool_decide (b = "")) eqn:Hb1.
      * apply bool_decide_eq_true in Hb1 as ->. injection Hm as <-.
        left. by exists "", (String a0 a).
      * destruct (bool_decide (b = String "010" "")) eqn:Hb2; [|done].
        apply bool_decide_eq_true in Hb2 as ->. injection Hm as <-.
        right. by exists "", (String a0 a).
    + intros Hs. destruct (IH _ Hs) as [(pre & w & -> & ?)|(pre & w & -> & ?)].
      * left. by exists (String c pre), w.
      * right. by exists (String c pre), w.
  - intros Hf.
    assert (∃ pre w tl, name = pre +:+ ext +:+ tl ∧ ext = "." +:+ w ∧ w ≠ ""
                        ∧ all is_word w = true ∧ (tl = "" ∨ tl = line_feed))
      as (pre & w & tl & -> & -> & Hw & Hall & Htl).
    { destruct Hf as [(pre & w & ? & ?)|(pre & w & ? & ?)];
        exists pre, w; eexists; intuition eauto. }
    clear Hf. induction pre as [|c pre IH].
    + rewrite app_nil_l. rewrite app_assoc.
      change ("." +:+ w +:+ tl) with (String "." (w +:+ tl)).
      cbn [Namer.search_extension]. rewrite match_word_run_hit by done. done.
    + rewrite app_cons. cbn [Namer.search_extension].
      destruct (is_char "." c); [|done].
      rewrite app_assoc. by rewrite match_word_run_miss.
Qed.

(** An extension at the very end makes the last character a word
    character. *)
Lemma trailing_extension_last name ext :
  trailing_extension name ext → ∃ c, is_word c = true ∧ ends_in c name = true.
Proof.
  intros (pre & w & -> & -> & Hw & Hall). rewrite app_nil_r.
  assert (∃ c, is_word c = true ∧ ends_in c w = true) as (c & Hc & Hend).
  { clear pre. induction w as [|d w IH]; [done|].
    cbn [all] in Hall. apply andb_true_iff in Hall as [Hd Hall].
    destruct w as [|e w].
    - exists d. split; [done|]. cbn. by apply bool_decide_eq_true.
    - destruct IH as (c & ? & ?); [done..|]. by exists c. }
  exists c. split; [done|].
  assert (∀ s t, t ≠ "" → ends_in c t = true → ends_in c (s +:+ t) = true) as Happ.
  { intros s t Ht Hc'. induction s as [|d s IH]; [done|].
    rewrite app_cons. cbn [ends_in].
    destruct (s +:+ t) eqn:Hst; [|done].
    by apply app_eq_nil in Hst as [_ ?]. }
  apply Happ; [|apply Happ; [done..]]. change ("." +:+ w) with (String "." w). done.
Qed.

(** *** The name and directory *)

(** What the extension handling appends to the bare label. *)
Definition appended (torrent_name : string) (is_single_file : bool) : string :=
  if is_single_file then from_option id "" (search_extension torrent_name) else "".

Lemma get_media_new_name_and_path_label wm tn single name dir :
  media_label wm = Ok (name, dir) →
  get_media_new_name_and_path wm tn single = Ok (name +:+ appended tn single, dir).
Proof.
  intros Hl. unfold Namer.get_media_new_name_and_path, appended. rewrite Hl.
  destruct single; [|by rewrite app_nil_r].
  destruct (search_extension tn); [done|]. by rewrite app_nil_r.
Qed.

Lemma appended_found tn ext : extension_found tn ext → appended tn true = ext.
Proof. intros H%search_extension_iff. unfold appended. by rewrite H. Qed.

Lemma appended_none tn single :
  single = false ∨ ¬ (∃ ext, extension_found tn ext) → appended tn single = "".
Proof.
  unfold appended. intros [->|Hno]; [done|]. destruct single; [|done].
  destruct (search_extension tn) as [ext|] eqn:Hs; [|done].
  destruct Hno. exists ext. by apply search_extension_iff.
Qed.

(** The two cases of the extension handling. *)
Lemma extension_cases wm tn single name dir :
  media_label wm = Ok (name, dir) →
  (∀ ext, single = true → extension_found tn ext →
     get_media_new_name_and_path wm tn single = Ok (name +:+ ext, dir))
  ∧ (single = false ∨ ¬ (∃ ext, extension_found tn ext) →
     get_media_new_name_and_path wm tn single = Ok (name, dir)).
Proof.
  intros Hl. split.
  - intros ext -> Hf.
    by rewrite (get_media_new_name_and_path_label _ _ _ _ _ Hl), (appended_found _ ext).
  - intros Hno.
    rewrite (get_media_new_name_and_path_label _ _ _ _ _ Hl), appended_none by done.
    by rewrite app_nil_r.
Qed.

(** C4 as the spec words it, at one input: the extension is appended
    exactly when the torrent is a single file and the release name
    ends with a dot and word characters at the end of the string. *)
Definition appends_on_trailing_extension_only
    (wm : WatchMedia) (tn : string) (single : bool) : Prop :=
  ∀ name dir, media_label wm = Ok (name, dir) →
    (∀ ext, single = true → trailing_extension tn ext →
       get_media_new_name_and_path wm tn single = Ok (name +:+ ext, dir))
    ∧ (single = false ∨ ¬ (∃ ext, trailing_extension tn ext) →
       get_media_new_name_and_path wm tn single = Ok (name, dir)).

(** C4, as amended.  For every media record with a label, the
    extension is appended to the name exactly when is_single_file is
    true and the release name has a dot followed by one or more word
    characters at the end of the string or just before a line feed
    that ends the string; the extension, without the line feed, is
    appended verbatim.  Otherwise the name is the bare label; so it is
    for the release name "Name.mkv [extra]". *)
Theorem extension_appended_iff_found wm tn single name dir :
  media_label wm = Ok (name, dir) →
  (∀ ext, single = true → extension_found tn ext →
     get_media_new_name_and_path wm tn single = Ok (name +:+ ext, dir))
  ∧ (single = false ∨ ¬ (∃ ext, extension_found tn ext) →
     get_media_new_name_and_path wm tn single = Ok (name, dir))
  ∧ get_media_new_name_and_path wm "Name.mkv [extra]" true = Ok (name, dir).
Proof.
  intros Hl. destruct (extension_cases wm tn single _ _ Hl) as [H1 H2].
  split; [exact H1|]. split; [exact H2|].
  rewrite (get_media_new_name_and_path_label _ _ _ _ _ Hl).
  by rewrite app_nil_r.
Qed.

(** C5.  For a movie with title [t] and release year [y], name and
    directory are both [t (y)]; for a single file whose release name
    ends with an extension, the extension is appended to the name
    only.  Movie "Rambo", 1982, release "Rambo [scene-stuff].mkv",
    single file: ("Rambo (1982).mkv", "Rambo (1982)"). *)
Theorem movie_name_and_path m tn :
  let base := movie_title m +:+ " (" +:+ pretty (release_year m) +:+ ")" in
  media_label (Movie m) = Ok (base, base)
  ∧ get_media_new_name_and_path (Movie m) tn false = Ok (base, base)
  ∧ (∀ ext, trailing_extension tn ext →
       get_media_new_name_and_path (Movie m) tn true = Ok (base +:+ ext, base))
  ∧ get_media_new_name_and_path (Movie (mkMovie "Rambo" 1982))
      "Rambo [scene-stuff].mkv" true
    = Ok ("Rambo (1982).mkv", "Rambo (1982)").
Proof.
  intros base. split; [done|]. split; [|split].
  - rewrite (get_media_new_name_and_path_label _ _ _ base base) by done.
    by rewrite app_nil_r.
  - intros ext Hext.
    rewrite (get_media_new_name_and_path_label _ _ _ base base) by done.
    rewrite (appended_found _ ext); [done|]. by left.
  - done.
Qed.

(** C6.  For an episode with season number [s] and episode number
    [e], both at least 1, the label is "S", [s] zero-padded to two
    digits, "E", [e] zero-padded to two digits, and the directory is
    the show's title path-joined with "Season " and [s] zero-padded:
    the title, a slash and that, when the title is not empty and does
    not end with a slash.  The name is the label, followed by the
    extension when the extension handling finds one. *)
Theorem episode_name_and_path e tn single :
  1 <= episode_season_number e → 1 <= episode_number e →
  let name := "S" +:+ zero_padded_2 (episode_season_number e)
                  +:+ "E" +:+ zero_padded_2 (episode_number e) in
  let dir := os_path_join (episode_show e)
               ("Season " +:+ zero_padded_2 (episode_season_number e)) in
  media_label (TVEpisode e) = Ok (name, dir)
  ∧ get_media_new_name_and_path (TVEpisode e) tn false = Ok (name, dir)
  ∧ get_media_new_name_and_path (TVEpisode e) tn single
    = Ok (name +:+ appended tn single, dir)
  ∧ (episode_show e ≠ "" → ends_in "/" (episode_show e) = false →
     dir = episode_show e +:+ "/Season " +:+ zero_padded_2 (episode_season_number e)).
Proof.
  intros Hs He name dir.
  assert (media_label (TVEpisode e) = Ok (name, dir)) as Hl.
  { cbn [media_label]. by rewrite !format_02d_zero_padded by lia. }
  split; [done|]. split; [|split].
  - rewrite (get_media_new_name_and_path_label _ _ _ _ _ Hl). by rewrite app_nil_r.
  - by apply get_media_new_name_and_path_label.
  - intros Hne Hend. unfold dir, os_path_join.
    change ("Season " +:+ ?x) with (String "S" ("eason " +:+ x)).
    cbn [startswith String.prefix]. rewrite Hend.
    rewrite bool_decide_eq_false_2 by done. done.
Qed.

(** C7 as the spec words it: whatever the release name and
    is_single_file, the name of a season is its bare label. *)
Definition season_name_is_label (s : WatchTVSeason) : Prop :=
  ∀ tn single,
    get_media_new_name_and_path (TVSeason s) tn single
    = Ok ("Season " +:+ zero_padded_2 (season_number s), season_show s).

(** C7, as amended.  For a season with season number [s] at least 1,
    the directory is the show's title for every release name and
    is_single_file; the name is "Season " and [s] zero-padded to two
    digits when is_single_file is false or the release name has no
    extension, and that label followed by the extension when
    is_single_file is true and the release name has one. *)
Theorem season_name_and_path s tn single :
  1 <= season_number s →
  let name := "Season " +:+ zero_padded_2 (season_number s) in
  get_media_new_name_and_path (TVSeason s) tn single
  = Ok (name +:+ appended tn single, season_show s)
  ∧ (single = false ∨ ¬ (∃ ext, extension_found tn ext) →
     get_media_new_name_and_path (TVSeason s) tn single = Ok (name, season_show s))
  ∧ (∀ ext, single = true → extension_found tn ext →
     get_media_new_name_and_path (TVSeason s) tn single
     = Ok (name +:+ ext, season_show s)).
Proof.
  intros Hs name.
  assert (media_label (TVSeason s) = Ok (name, season_show s)) as Hl.
  { cbn [media_label]. by rewrite format_02d_zero_padded by lia. }
  split; [by apply get_media_new_name_and_path_label|].
  destruct (extension_cases (TVSeason s) tn single _ _ Hl) as [H1 H2].
  split; [exact H2|exact H1].
Qed.

End ExtensionFacts.

(** For the examples no character beyond ASCII is a word character. *)
Definition ascii_words (_ : ascii) : bool := false.

Definition rambo : WatchMedia := Movie (mkMovie "Rambo" 1982).
Definition rick_and_morty_s03 : WatchTVSeason := mkSeason "Rick and Morty" 3.
Definition rick_and_morty_s03e14 : WatchTVEpisode := mkEpisode "Rick and Morty" 3 14.

(** C4 as stated fails at a release name that ends with a line feed:
    nothing ends the string after a dot and word characters, and the
    extension is appended all the same. *)
Lemma extension_appended_before_line_feed :
  ¬ appends_on_trailing_extension_only ascii_words rambo
      ("Rambo.mkv" +:+ line_feed) true.
Proof.
  intros H. destruct (H _ _ eq_refl) as [_ H2].
  assert (¬ (∃ ext, trailing_extension ascii_words ("Rambo.mkv" +:+ line_feed) ext))
    as Hno.
  { intros (ext & Hext).
    destruct (trailing_extension_last _ _ _ Hext) as (c & Hc & Hend).
    cbv [String.append ends_in line_feed] in Hend.
    apply bool_decide_eq_true in Hend as <-. done. }
  specialize (H2 (or_intror Hno)). vm_compute in H2. done.
Qed.

Lemma extension_appended_iff_found_witness :
  get_media_new_name_and_path ascii_words rambo ("Rambo.mkv" +:+ line_feed) true
  = Ok ("Rambo (1982).mkv", "Rambo (1982)")
  ∧ get_media_new_name_and_path ascii_words rambo "Name.mkv [extra]" true
    = Ok ("Rambo (1982)", "Rambo (1982)").
Proof.
  destruct (extension_appended_iff_found ascii_words rambo
              ("Rambo.mkv" +:+ line_feed) true "Rambo (1982)" "Rambo (1982)" eq_refl)
    as (H1 & _ & H3).
  split; [|exact H3].
  apply (H1 ".mkv" eq_refl). right. by exists "Rambo", "mkv".
Defined.

Lemma episode_name_and_path_witness :
  get_media_new_name_and_path ascii_words (TVEpisode rick_and_morty_s03e14)
    "Rick and Morty - S03E14 [scene-stuff].mkv" true
  = Ok ("S03E14.mkv", "Rick and Morty/Season 03")
  ∧ media_label (TVEpisode rick_and_morty_s03e14)
    = Ok ("S03E14", "Rick and Morty/Season 03").
Proof.
  destruct (episode_name_and_path ascii_words rick_and_morty_s03e14
              "Rick and Morty - S03E14 [scene-stuff].mkv" true
              ltac:(vm_compute; congruence) ltac:(vm_compute; congruence))
    as (H1 & _ & H3 & _).
  split; [exact H3|exact H1].
Defined.

(** The scenarios of the spec that the theorems do not spell out. *)
Example movie_folder :
  get_media_new_name_and_path ascii_words rambo "Rambo [scene-stuff]" false
  = Ok ("Rambo (1982)", "Rambo (1982)").
Proof. reflexivity. Qed.

Example episode_folder :
  get_media_new_name_and_path ascii_words (TVEpisode rick_and_morty_s03e14)
    "Rick and Morty - S03E14 [scene-stuff]" false
  = Ok ("S03E14", "Rick and Morty/Season 03").
Proof. reflexivity. Qed.

Example unknown_media :
  get_media_new_name_and_path ascii_words OtherMedia "x.mkv" true
  = Raise (Exception "unknown media").
Proof. reflexivity. Qed.

(** C7 as stated fails for a season that comes as a single file with
    an extension. *)
Lemma season_single_file_gets_extension :
  ¬ season_name_is_label ascii_words rick_and_morty_s03.
Proof.
  intros H. specialize (H "Rick.and.Morty.S03.mkv" true). vm_compute in H. done.
Qed.

Lemma season_name_and_path_witness :
  get_media_new_name_and_path ascii_words (TVSeason rick_and_morty_s03)
    "Rick and Morty - Season 3 [scene-stuff]" false
  = Ok ("Season 03", "Rick and Morty")
  ∧ get_media_new_name_and_path ascii_words (TVSeason rick_and_morty_s03)
      "Rick.and.Morty.S03.mkv" true
    = Ok ("Season 03.mkv", "Rick and Morty").
Proof.
  split.
  - destruct (season_name_and_path ascii_words rick_and_morty_s03
                "Rick and Morty - Season 3 [scene-stuff]" false
                ltac:(vm_compute; congruence)) as (_ & H2 & _).
    apply H2. by left.
  - destruct (season_name_and_path ascii_words rick_and_morty_s03
                "Rick.and.Morty.S03.mkv" true
                ltac:(vm_compute; congruence)) as (_ & _ & H3).
    apply (H3 ".mkv" eq_refl). left. by exists "Rick.and.Morty.S03", "mkv".
Defined.

End NamerFacts.

(** ** The resolver and the filter *)

Module FilterFacts.
Import Str StrFacts Filter.

Lemma is_magnet_url_nonempty u : is_magnet_url u = true → u ≠ "".
Proof. by destruct u. Qed.

Lemma format_url_nonempty sc h p pa q : Url.format_url sc h p pa q ≠ "".
Proof.
  unfold Url.format_url. intros [_ H]%app_eq_nil. discriminate.
Qed.

Lemma with_torrent_url_twice u u' r :
  with_torrent_url u' (with_torrent_url u r) = with_torrent_url u' r.
Proof. done. Qed.

Section FilterFacts.
Context (server : list string → string → outcome).
Context (check_bracketed_host : string → bool) (nfkc_ok : string → bool).
Abbreviation requests_get := (requests_get server).
Abbreviation trace_torrent_url := (trace_torrent_url server).
Abbreviation swap_jackett_host := (swap_jackett_host check_bracketed_host nfkc_ok).
Abbreviation resolve := (resolve server check_bracketed_host nfkc_ok).
Abbreviation annotate := (annotate server check_bracketed_host nfkc_ok).
Abbreviation filter_loop := (filter_loop server check_bracketed_host nfkc_ok).
Abbreviation results_with_valid_urls :=
  (results_with_valid_urls server check_bracketed_host nfkc_ok).

(** The URL whose GET the resolution of a result issues, if any: none
    for a non-empty magnet, none when the link does not parse, none
    when the rewritten link is itself a magnet URL. *)
Definition request_of (s : Url.NefariousSettings) (r : result) : option string :=
  match MagnetUri r with
  | Some (String _ _) => None
  | _ =>
      match Url.swap_jackett_host check_bracketed_host nfkc_ok (Link r) s with
      | Some url => if is_magnet_url url then None else Some url
      | None => None
      end
  end.

(** The requests a run over [results] issues, in order. *)
Definition requests_for (s : Url.NefariousSettings) (h : heap) (results : list loc)
  : list string :=
  omap (λ l, request_of s (h l)) results.

(** [trace_torrent_url] leaves the objects alone, requests the URL
    once unless it is a magnet URL, and returns the URL or a magnet
    URL. *)
Lemma trace_torrent_url_spec url w r w' :
  trace_torrent_url url w = (r, w') →
  objects w' = objects w
  ∧ requested w' = requested w ++ (if is_magnet_url url then [] else [url])
  ∧ ∀ u, r = Ok u → u = url ∨ is_magnet_url u = true.
Proof.
  unfold Filter.trace_torrent_url.
  destruct (is_magnet_url url) eqn:Hm.
  - intros [= <- <-]. rewrite List.app_nil_r. split; [done|]. split; [done|].
    intros u [= <-]. by left.
  - unfold bind, Filter.requests_get.
    destruct (server (requested w) url) as [|response].
    + intros [= <- <-]. by repeat split.
    + destruct (negb (ok response)); [intros [= <- <-]; by repeat split|].
      destruct (is_redirect response).
      * destruct (location response) as [target|];
          [|intros [= <- <-]; by repeat split].
        destruct (is_magnet_url target) eqn:Ht; intros [= <- <-];
          (split; [done|]); (split; [done|]); intros u [= <-]; auto.
      * intros [= <- <-]. split; [done|]. split; [done|].
        intros u [= <-]. by left.
Qed.

(** [resolve] leaves the objects alone, issues the request
    [request_of] tells, and returns a non-empty string. *)
Lemma resolve_fallthrough_spec l s w r w' :
  (let* url := swap_jackett_host (Link (objects w l)) s in trace_torrent_url url) w
  = (r, w') →
  objects w' = objects w
  ∧ requested w' = requested w
      ++ option_list
           (match Url.swap_jackett_host check_bracketed_host nfkc_ok
                    (Link (objects w l)) s with
            | Some url => if is_magnet_url url then None else Some url
            | None => None
            end)
  ∧ ∀ u, r = Ok u → u ≠ "".
Proof.
  unfold bind, Filter.swap_jackett_host, Url.swap_jackett_host.
  destruct (Url.urlparse _ _ (Link (objects w l))) as [p|].
  - unfold ret. intros (Ho & Hr & Hu)%trace_torrent_url_spec.
    split; [done|]. split; [by destruct (is_magnet_url _)|].
    intros u Hr'. destruct (Hu u Hr') as [->|?];
      [apply format_url_nonempty|by apply is_magnet_url_nonempty].
  - intros [= <- <-]. rewrite List.app_nil_r. by repeat split.
Qed.

Lemma resolve_spec l s w r w' :
  resolve l s w = (r, w') →
  objects w' = objects w
  ∧ requested w' = requested w ++ option_list (request_of s (objects w l))
  ∧ ∀ u, r = Ok u → u ≠ "".
Proof.
  unfold Filter.resolve, request_of. unfold bind at 1. unfold read at 1.
  destruct (MagnetUri (objects w l)) as [[|c m]|] eqn:Hmag.
  - unfold bind at 1. unfold read. apply resolve_fallthrough_spec.
  - intros [= <- <-]. rewrite List.app_nil_r. split; [done|]. split; [done|].
    by intros u [= <-].
  - unfold bind at 1. unfold read. apply resolve_fallthrough_spec.
Qed.

(** One candidate: on success the object gets its [torrent_url], a
    non-empty string; on failure no object changes. *)
Lemma annotate_spec l s w r w' :
  annotate l s w = (r, w') →
  requested w' = requested w ++ option_list (request_of s (objects w l))
  ∧ match r with
    | Ok _ => ∃ u, u ≠ "" ∧ objects w' = alter (with_torrent_url u) l (objects w)
    | Raise _ => objects w' = objects w
    end.
Proof.
  unfold Filter.annotate, bind.
  destruct (resolve l s w) as [[u|e] w1] eqn:Hres;
    destruct (resolve_spec _ _ _ _ _ Hres) as (Ho & Hr & Hu).
  - unfold assign_torrent_url. intros [= <- <-]. cbn [requested objects].
    split; [done|]. exists u. rewrite Ho. split; [by apply Hu|done].
  - by intros [= <- <-].
Qed.

Lemma request_of_with_torrent_url s u r :
  request_of s (with_torrent_url u r) = request_of s r.
Proof. done. Qed.

Lemma requests_for_ext s (h1 h2 : heap) results :
  (∀ l, request_of s (h1 l) = request_of s (h2 l)) →
  requests_for s h1 results = requests_for s h2 results.
Proof.
  intros Hext. unfold requests_for.
  induction results as [|l results IH]; [done|]. cbn. by rewrite Hext, IH.
Qed.

Lemma requests_for_length s (h : heap) results :
  (length (requests_for s h results) ≤ length results)%nat.
Proof.
  unfold requests_for. induction results as [|l results IH]; [done|].
  cbn. destruct (request_of s (h l)); cbn; lia.
Qed.

Lemma request_of_alter s u l (h : heap) l' :
  request_of s (alter (with_torrent_url u) l h l') = request_of s (h l').
Proof.
  destruct (decide (l = l')) as [->|Hne].
  - by rewrite fn_lookup_alter.
  - by rewrite fn_lookup_alter_ne.
Qed.

(** The loop: it returns, the survivors are appended to the
    accumulator in input order, each processed candidate issued the
    request its record calls for and no other, an object outside the
    survivors is as it was, and a survivor differs from what it was by
    its non-empty [torrent_url] only. *)
Lemma filter_loop_spec results s acc w :
  ∃ out w', filter_loop results s acc w = (Ok (acc ++ out), w')
    ∧ sublist out results
    ∧ requested w' = requested w ++ requests_for s (objects w) results
    ∧ (∀ l, l ∉ out → objects w' l = objects w l)
    ∧ (∀ l, l ∈ out →
         ∃ u, u ≠ "" ∧ objects w' l = with_torrent_url u (objects w l)).
Proof.
  revert acc w. induction results as [|l results IH]; intros acc w.
  - exists [], w. cbn. rewrite !List.app_nil_r. repeat split; try done.
    intros l Hl. by apply elem_of_nil in Hl.
  - cbn [Filter.filter_loop]. unfold bind at 1. unfold try.
    destruct (annotate l s w) as [[[]|e] w1] eqn:Hann;
      destruct (annotate_spec _ _ _ _ _ Hann) as (Hreq & Hobj).
    + destruct Hobj as (u & Hu & Hobj).
      destruct (IH (acc ++ [l]) w1) as (out & w' & Hrun & Hsub & Hreq' & Hout & Hin).
      exists (l :: out), w'. split; [by rewrite Hrun, <- List.app_assoc|].
      split; [by constructor|]. split; [|split].
      * rewrite Hreq', Hreq, <- List.app_assoc. f_equal.
        unfold requests_for at 2. cbn [omap list_omap].
        rewrite Hobj.
        rewrite (requests_for_ext s _ (objects w))
          by (intros; apply request_of_alter).
        fold (requests_for s (objects w) results).
        by destruct (request_of s (objects w l)).
      * intros l' [Hne Hno]%not_elem_of_cons.
        rewrite Hout, Hobj by done. by rewrite fn_lookup_alter_ne.
      * intros l' Hl'. destruct (decide (l' ∈ out)) as [Hmem|Hno].
        -- destruct (Hin l' Hmem) as (u' & Hu' & ->). exists u'. split; [done|].
           rewrite Hobj. destruct (decide (l = l')) as [->|Hne].
           ++ by rewrite fn_lookup_alter.
           ++ by rewrite fn_lookup_alter_ne.
        -- apply elem_of_cons in Hl' as [->|?]; [|done].
           exists u. split; [done|]. rewrite Hout, Hobj by done.
           by rewrite fn_lookup_alter.
    + destruct (IH acc w1) as (out & w' & Hrun & Hsub & Hreq' & Hout & Hin).
      exists out, w'. split; [done|]. split; [by constructor|].
      rewrite Hobj in *. split; [|by split].
      rewrite Hreq', Hreq, <- List.app_assoc. f_equal.
      unfold requests_for at 2. cbn [omap list_omap].
      fold (requests_for s (objects w) results).
      by destruct (request_of s (objects w l)).
Qed.

(** C2.  A result whose [MagnetUri] is a non-empty string resolves to
    that string and the world, the requests made included, is as
    before; the assignment then stores it as [torrent_url].
    [trace_torrent_url] on a magnet URL returns the URL, again with no
    request.  An empty [MagnetUri] (or [None]) falls through to the
    host rewrite of the link followed by the trace. *)
Theorem magnet_short_circuit l s w :
  (∀ m, MagnetUri (objects w l) = Some m → m ≠ "" →
     resolve l s w = (Ok m, w)
     ∧ annotate l s w
       = (Ok tt, mkWorld (alter (with_torrent_url m) l (objects w)) (requested w)))
  ∧ (∀ url, is_magnet_url url = true → trace_torrent_url url w = (Ok url, w))
  ∧ (MagnetUri (objects w l) = Some "" ∨ MagnetUri (objects w l) = None →
     resolve l s w
     = (let* url := swap_jackett_host (Link (objects w l)) s in
        trace_torrent_url url) w).
Proof.
  split; [|split].
  - intros m Hm Hne.
    assert (resolve l s w = (Ok m, w)) as Hres.
    { unfold Filter.resolve, bind, read. rewrite Hm. by destruct m. }
    split; [done|]. unfold Filter.annotate, bind. by rewrite Hres.
  - intros url Hurl. unfold Filter.trace_torrent_url. by rewrite Hurl.
  - intros Hm. unfold Filter.resolve. unfold bind at 1. unfold read at 1.
    by destruct Hm as [-> | ->].
Qed.

(** C3.  [results_with_valid_urls] always returns: a failed candidate
    is left out and the rest of the list is processed.  The output is
    a subsequence of the input (no longer than it, in the same
    relative order), every output element has a non-empty
    [torrent_url], and each candidate causes at most one request: the
    one its record calls for. *)
Theorem results_with_valid_urls_subsequence results s w :
  ∃ out w', results_with_valid_urls results s w = (Ok out, w')
    ∧ sublist out results
    ∧ (length out ≤ length results)%nat
    ∧ (∀ l, l ∈ out → ∃ u, torrent_url (objects w' l) = Some u ∧ u ≠ "")
    ∧ requested w' = requested w ++ requests_for s (objects w) results
    ∧ (length (requested w') ≤ length (requested w) + length results)%nat
    ∧ (∀ l e w1, annotate l s w = (Raise e, w1) →
         results_with_valid_urls (l :: results) s w
         = results_with_valid_urls results s w1).
Proof.
  destruct (filter_loop_spec results s [] w) as (out & w' & Hrun & Hsub & Hreq & _ & Hin).
  exists out, w'. split; [done|]. split; [done|].
  split; [by apply sublist_length|]. split; [|split; [done|split]].
  - intros l Hl. destruct (Hin l Hl) as (u & Hu & ->). by exists u.
  - rewrite Hreq, length_app.
    pose proof (requests_for_length s (objects w) results). lia.
  - intros l e w1 Hann. unfold Filter.results_with_valid_urls.
    cbn [Filter.filter_loop]. unfold bind at 1. unfold try. by rewrite Hann.
Qed.

(** C10.  A candidate whose resolution fails leaves every object as it
    was: the value is computed before the assignment.  After the run
    an object that is not in the output is unchanged, so it carries no
    [torrent_url] it did not have, and an object in the output is what
    it was with the key [torrent_url] set. *)
Theorem failed_candidate_unmodified results s w :
  (∀ l e w1, annotate l s w = (Raise e, w1) → objects w1 = objects w)
  ∧ ∃ out w', results_with_valid_urls results s w = (Ok out, w')
      ∧ (∀ l, l ∉ out → objects w' l = objects w l)
      ∧ (∀ l, l ∈ out → ∃ u, objects w' l = with_torrent_url u (objects w l)).
Proof.
  split.
  - intros l e w1 Hann. by destruct (annotate_spec _ _ _ _ _ Hann) as (_ & ?).
  - destruct (filter_loop_spec results s [] w)
      as (out & w' & Hrun & _ & _ & Hout & Hin).
    exists out, w'. split; [done|]. split; [done|].
    intros l Hl. destruct (Hin l Hl) as (u & _ & ->). by exists u.
Qed.

End FilterFacts.

(** *** A run of the filter *)

(** A network that redirects the first link to a magnet URL, answers
    404 for the second, serves the third and is down for anything
    else. *)
Definition example_server (_ : list string) (url : string) : outcome :=
  if bool_decide (url = "http://jackett:9117/dl/a?x=1")
  then Answered (mkResponse 302 (Some "magnet:?xt=urn:btih:a") "")
  else if bool_decide (url = "http://jackett:9117/dl/b?")
  then Answered (mkResponse 404 None "not found")
  else if bool_decide (url = "http://jackett:9117/dl/c?")
  then Answered (mkResponse 200 None "d8:announce")
  else Failed.

(** Five result objects: a link that redirects, a link that fails
    beside an empty magnet, a link served directly, a magnet, and a
    link that does not parse. *)
Definition example_heap : nat → result := λ l,
  match l with
  | 0%nat => mkResult "A" "http://host:1/dl/a?x=1" None 5 None
  | 1%nat => mkResult "B" "http://host:1/dl/b" (Some "") 7 None
  | 2%nat => mkResult "C" "http://host:1/dl/c#f" None 7 None
  | 3%nat => mkResult "D" "http://host:1/dl/d" (Some "magnet:?xt=urn:btih:d") 1 None
  | _ => mkResult "E" "http://host]:1/dl/e" (Some "") 1 None
  end.

Definition example_world : world := mkWorld example_heap [].

Definition example_run : res (list nat) * world :=
  Filter.results_with_valid_urls example_server UrlFacts.pass UrlFacts.pass
    [0; 1; 2; 3; 4; 0]%nat UrlFacts.jackett example_world.

(** The survivors keep their order, the first object is processed
    twice, three links are requested, and only the survivors carry a
    [torrent_url]. *)
Example example_run_result :
  fst example_run = Ok [0; 2; 3; 0]%nat
  ∧ requested (snd example_run)
    = ["http://jackett:9117/dl/a?x=1"; "http://jackett:9117/dl/b?";
       "http://jackett:9117/dl/c?"; "http://jackett:9117/dl/a?x=1"]
  ∧ (λ l, torrent_url (objects (snd example_run) l)) <$> [0; 1; 2; 3; 4]%nat
    = [Some "magnet:?xt=urn:btih:a"; None; Some "http://jackett:9117/dl/c?";
       Some "magnet:?xt=urn:btih:d"; None].
Proof. by vm_compute. Qed.

Lemma magnet_short_circuit_witness :
  Filter.resolve example_server UrlFacts.pass UrlFacts.pass 3%nat UrlFacts.jackett
    example_world
  = (Ok "magnet:?xt=urn:btih:d", example_world)
  ∧ Filter.trace_torrent_url example_server "magnet:?xt=urn:btih:d" example_world
    = (Ok "magnet:?xt=urn:btih:d", example_world).
Proof.
  destruct (magnet_short_circuit example_server UrlFacts.pass UrlFacts.pass
              3%nat UrlFacts.jackett example_world) as (H1 & H2 & _).
  split.
  - by apply (H1 "magnet:?xt=urn:btih:d" eq_refl).
  - by apply H2.
Defined.

Lemma failed_candidate_unmodified_witness :
  objects (snd (Filter.annotate example_server UrlFacts.pass UrlFacts.pass
                  1%nat UrlFacts.jackett example_world))
  = objects example_world.
Proof.
  destruct (failed_candidate_unmodified example_server UrlFacts.pass UrlFacts.pass
              [0; 1]%nat UrlFacts.jackett example_world) as (H1 & _).
  by apply (H1 1%nat (Exception "not found")).
Defined.

End FilterFacts.

(** * Further properties *)

(** ** The ranker: composition and order *)

Module RankerMore.
Import Ranker.
Section RankerMore.
Context {A : Type} (Seeders : A → Z).
Abbreviation better := (better Seeders).
Abbreviation first_max := (first_max Seeders).
Abbreviation get_best_torrent_result := (get_best_torrent_result Seeders).

(** Keeping the earlier of two results unless the later has strictly
    more seeders is associative. *)
Lemma better_assoc a b c : better (better a b) c = better a (better b c).
Proof.
  unfold Ranker.better.
  destruct (Seeders b >? Seeders a) eqn:Hba;
    destruct (Seeders c >? Seeders b) eqn:Hcb;
    destruct (Seeders c >? Seeders a) eqn:Hca;
    rewrite ?Hba, ?Hcb, ?Hca; try done; exfalso;
    repeat match goal with
           | H : (_ >? _) = _ |- _ =>
               rewrite Z.gtb_ltb in H;
               first [apply Z.ltb_lt in H | apply Z.ltb_ge in H]
           end; lia.
Qed.

Lemma better_idem a : better a a = a.
Proof. unfold Ranker.better. by rewrite Z.gtb_ltb, Z.ltb_irrefl. Qed.

Lemma scan_better l a b :
  fold_left better l (better a b) = better a (fold_left better l b).
Proof.
  revert b. induction l as [|c l IH]; intros b; [done|].
  cbn [fold_left]. by rewrite better_assoc, IH.
Qed.

(** The best result of a non-empty list, as a scan from its head. *)
Lemma get_best_cons x l :
  get_best_torrent_result (x :: l) = Some (fold_left better l x).
Proof. unfold Ranker.get_best_torrent_result. cbn [fold_left]. by rewrite better_idem. Qed.

(** X1.  Ranking a concatenation is ranking the parts and comparing
    the two winners, the winner of the first part being kept on a tie;
    an empty part does not count. *)
Theorem get_best_torrent_result_app (l1 l2 : list A) :
  get_best_torrent_result (l1 ++ l2)
  = match get_best_torrent_result l1, get_best_torrent_result l2 with
    | Some a, Some b => Some (better a b)
    | Some a, None => Some a
    | None, r => r
    end.
Proof.
  destruct l1 as [|x l1]; [done|]. rewrite <- app_comm_cons.
  rewrite !get_best_cons, fold_left_app.
  destruct l2 as [|y l2]; [done|]. rewrite get_best_cons. f_equal.
  cbn [fold_left]. by rewrite scan_better.
Qed.

(** The result of the ranker is a first maximum of the list. *)
Lemma get_best_first_max R r :
  get_best_torrent_result R = Some r → ∃ i, first_max R i r.
Proof.
  destruct R as [|x l]; [done|]. rewrite get_best_cons. intros [= <-].
  destruct (RankerFacts.scan_first_max Seeders [x] l 0%nat x) as [k Hk]; [|by exists k].
  repeat split; [|intros j ??; lia].
  intros y ->%list_elem_of_singleton. lia.
Qed.

(** X2.  The seeder count of the winner does not depend on the order
    of the results: reordering the list can change which of several
    tied results wins, never the count it wins with, and never whether
    there is a winner. *)
Theorem get_best_torrent_result_permutation (R R' : list A) :
  R ≡ₚ R' →
  Seeders <$> get_best_torrent_result R = Seeders <$> get_best_torrent_result R'.
Proof.
  intros Hperm.
  destruct (get_best_torrent_result R) as [r|] eqn:HR;
    destruct (get_best_torrent_result R') as [r'|] eqn:HR'; cbn.
  - destruct (get_best_first_max _ _ HR) as (i & Hi & Hmax & _).
    destruct (get_best_first_max _ _ HR') as (i' & Hi' & Hmax' & _).
    assert (r ∈ R') as Hin.
    { rewrite <- Hperm. apply list_elem_of_lookup. eauto. }
    assert (r' ∈ R) as Hin'.
    { rewrite Hperm. apply list_elem_of_lookup. eauto. }
    f_equal. specialize (Hmax r' Hin'). specialize (Hmax' r Hin). lia.
  - destruct R' as [|??]; [|done]. apply Permutation_nil_r in Hperm. by subst.
  - destruct R as [|??]; [|done].
    symmetry in Hperm. apply Permutation_nil_r in Hperm. by subst.
  - done.
Qed.

End RankerMore.

Lemma get_best_torrent_result_permutation_witness :
  snd <$> get_best_torrent_result snd [("a", 5); ("b", 7); ("c", 7)]
  = snd <$> get_best_torrent_result snd [("c", 7); ("a", 5); ("b", 7)].
Proof.
  apply (get_best_torrent_result_permutation snd).
  change [("c", 7); ("a", 5); ("b", 7)] with ([("c", 7)] ++ [("a", 5); ("b", 7)]).
  rewrite (Permutation_app_comm [("c", 7)]). done.
Defined.

End RankerMore.

(** ** The path namer: shape of the name, distinct labels *)

Module NamerMore.
Import Str StrFacts Namer.

Lemma length_app s t :
  String.length (s +:+ t) = (String.length s + String.length t)%nat.
Proof. induction s as [|c s IH]; [done|]. rewrite app_cons. cbn. by rewrite IH. Qed.

(** A common ending can be cancelled. *)
Lemma app_inv_tail s t x : s +:+ x = t +:+ x → s = t.
Proof.
  revert t. induction s as [|a s IH]; intros [|b t] H; [done| | |].
  - apply (f_equal String.length) in H. rewrite !length_app in H. cbn in H. lia.
  - apply (f_equal String.length) in H. rewrite !length_app in H. cbn in H. lia.
  - rewrite !app_cons in H. injection H as -> H. f_equal. by apply IH.
Qed.

(** *** The zero-padded number *)

(** A printed positive number does not start with a zero. *)
Lemma pretty_N_go_head x s :
  (0 < x)%N → ∃ c r, pretty_N_go x s = String c r ∧ c ≠ "0"%char.
Proof.
  revert s. induction (N.lt_wf_0 x) as [x _ IH]; intros s Hx.
  rewrite pretty_N_go_step by done.
  assert (x < 10 ∨ 10 ≤ x)%N as [Hlt|Hge] by lia.
  - rewrite N.div_small, N.mod_small by done. rewrite pretty_N_go_0.
    eexists _, _. split; [done|].
    assert (x = 1 ∨ x = 2 ∨ x = 3 ∨ x = 4 ∨ x = 5 ∨ x = 6 ∨ x = 7 ∨ x = 8 ∨ x = 9)%N
      as Hcases by lia.
    repeat (destruct Hcases as [->|Hcases]; [done|]). by subst.
  - apply IH; [by apply N.div_lt|]. apply N.div_str_pos. lia.
Qed.

Lemma pretty_pos_head (n : Z) :
  0 < n → ∃ c r, pretty n = String c r ∧ c ≠ "0"%char.
Proof.
  destruct n as [|p|p]; [lia| |lia]. intros _.
  change (pretty (Z.pos p)) with (pretty (N.pos p)).
  unfold pretty, pretty_N. case_decide; [done|]. by apply pretty_N_go_head.
Qed.

(** On a negative number ['{:02d}'] pads nothing: the sign and one
    digit fill the width. *)
Lemma format_02d_negative n : n < 0 → format_02d n = pretty n.
Proof.
  intros Hn. unfold format_02d, format_0d.
  destruct (Z.ltb_spec n 0) as [_|?]; [|lia].
  destruct n as [|p|p]; [lia|lia|].
  change (Z.abs (Z.neg p)) with (Z.pos p).
  destruct (pretty_pos_head (Z.pos p)) as (c & r & Hp & _); [lia|].
  change (pretty (Z.neg p)) with ("-" +:+ pretty (Z.pos p)).
  rewrite Hp. done.
Qed.

Lemma format_02d_cases n :
  (n < 0 ∧ format_02d n = pretty n)
  ∨ (0 <= n < 10 ∧ format_02d n = "0" +:+ pretty n)
  ∨ (10 <= n ∧ format_02d n = pretty n).
Proof.
  destruct (Z.ltb_spec n 0); [left; auto using format_02d_negative|].
  right. rewrite NamerFacts.format_02d_zero_padded by done. unfold zero_padded_2.
  destruct (Z.ltb_spec n 10); [left|right]; auto with lia.
Qed.

Lemma pretty_negative_head n : n < 0 → ∃ r, pretty n = String "-" r.
Proof. destruct n as [|p|p]; [lia|lia|]. intros _. by eexists. Qed.

(** Distinct numbers are padded to distinct strings. *)
Lemma format_02d_inj n m : format_02d n = format_02d m → n = m.
Proof.
  assert (∀ a b, 0 <= a < 10 → ¬ 0 <= b < 10 →
                 "0" +:+ pretty a ≠ pretty b) as Hmixed.
  { intros a b Ha Hb Heq. destruct (Z.ltb_spec b 0).
    - destruct (pretty_negative_head b) as (r & Hr); [done|].
      rewrite Hr in Heq. discriminate.
    - destruct (pretty_pos_head b) as (c & r & Hr & Hc); [lia|].
      rewrite Hr in Heq. injection Heq as <- _. done. }
  destruct (format_02d_cases n) as [[Hn ->]|[[Hn ->]|[Hn ->]]];
    destruct (format_02d_cases m) as [[Hm ->]|[[Hm ->]|[Hm ->]]]; intros Heq;
    try (by apply (inj pretty));
    try (by destruct (Hmixed n m); [|lia|]);
    try (by destruct (Hmixed m n); [|lia|]).
  injection Heq as Heq. by apply (inj pretty).
Qed.

(** A padded number consists of digits and the sign. *)
Lemma format_02d_int n : all UrlFacts.is_int_char (format_02d n) = true.
Proof.
  destruct (format_02d_cases n) as [[_ ->]|[[_ ->]|[_ ->]]];
    rewrite ?all_app; by rewrite UrlFacts.pretty_Z_int.
Qed.

Lemma format_02d_no_E n : has (is_char "E") (format_02d n) = false.
Proof.
  apply has_false_all. apply (all_impl UrlFacts.is_int_char); [|apply format_02d_int].
  intros c. UrlFacts.by_cases_on_ascii c.
Qed.

(** Two labels [S..E..] are equal only for equal numbers. *)
Lemma episode_label_inj s1 e1 s2 e2 :
  format_02d s1 +:+ "E" +:+ format_02d e1
  = format_02d s2 +:+ "E" +:+ format_02d e2 →
  s1 = s2 ∧ e1 = e2.
Proof.
  intros H.
  assert (∀ a b, break_at (is_char "E") (format_02d a +:+ "E" +:+ format_02d b)
                 = (format_02d a, "E" +:+ format_02d b)) as Hb.
  { intros a b. by apply break_at_app; [apply format_02d_no_E|]. }
  pose proof (Hb s1 e1) as H1. rewrite H, Hb in H1.
  injection H1 as Hs He. split; by apply format_02d_inj.
Qed.

Section NameShape.
Context (word_beyond_ascii : ascii → bool).
Abbreviation is_word := (is_word word_beyond_ascii).
Abbreviation search_extension := (search_extension word_beyond_ascii).
Abbreviation get_media_new_name_and_path :=
  (get_media_new_name_and_path word_beyond_ascii).
Abbreviation appended := (NamerFacts.appended word_beyond_ascii).

Lemma word_no_slash w : all is_word w = true → has (is_char "/") w = false.
Proof.
  intros Hall. apply has_false_all. revert Hall. apply all_impl.
  intros c Hc. destruct (is_char "/" c) eqn:Hs; [|done].
  apply bool_decide_eq_true in Hs as ->. done.
Qed.

(** What is appended is nothing, or a dot and word characters. *)
Lemma appended_shape tn single :
  appended tn single = ""
  ∨ ∃ w, appended tn single = "." +:+ w ∧ w ≠ "" ∧ all is_word w = true.
Proof.
  unfold NamerFacts.appended. destruct single; [|by left].
  destruct (search_extension tn) as [ext|] eqn:Hs; [|by left]. right.
  apply NamerFacts.search_extension_iff in Hs
    as [(pre & w & _ & -> & ?)|(pre & w & _ & -> & ?)]; by exists w.
Qed.

(** X3.  For a movie, a season or an episode the namer returns, and
    the directory is that of the label whatever the release name and
    is_single_file; the name is the label followed by nothing or by a
    dot and word characters, so no slash of the release name reaches
    the name.  For anything else the namer raises
    [Exception('unknown media')]. *)
Theorem get_media_new_name_and_path_shape wm tn single :
  match media_label wm with
  | Ok (label, dir) =>
      ∃ ext, get_media_new_name_and_path wm tn single = Ok (label +:+ ext, dir)
        ∧ (ext = "" ∨ ∃ w, ext = "." +:+ w ∧ w ≠ "" ∧ all is_word w = true)
        ∧ has (is_char "/") ext = false
  | Raise e =>
      wm = OtherMedia
      ∧ get_media_new_name_and_path wm tn single = Raise (Exception "unknown media")
  end.
Proof.
  destruct (media_label wm) as [[label dir]|e] eqn:Hl.
  - exists (appended tn single).
    split; [by apply NamerFacts.get_media_new_name_and_path_label|].
    split; [apply appended_shape|].
    destruct (appended_shape tn single) as [->|(w & -> & _ & Hall)]; [done|].
    change ("." +:+ w) with (String "." w). cbn [has]. by apply word_no_slash.
  - by destruct wm.
Qed.

(** X4.  Names do not collide: two episodes that get the same name,
    for the same release name and is_single_file, have the same season
    and episode numbers, and two seasons that get the same name have
    the same season number. *)
Theorem names_distinct tn single :
  (∀ e1 e2 n d1 d2,
     get_media_new_name_and_path (TVEpisode e1) tn single = Ok (n, d1) →
     get_media_new_name_and_path (TVEpisode e2) tn single = Ok (n, d2) →
     episode_season_number e1 = episode_season_number e2
     ∧ episode_number e1 = episode_number e2)
  ∧ (∀ s1 s2 n d1 d2,
       get_media_new_name_and_path (TVSeason s1) tn single = Ok (n, d1) →
       get_media_new_name_and_path (TVSeason s2) tn single = Ok (n, d2) →
       season_number s1 = season_number s2).
Proof.
  split.
  - intros e1 e2 n d1 d2.
    rewrite (NamerFacts.get_media_new_name_and_path_label _ (TVEpisode e1) _ _ _ _ eq_refl).
    rewrite (NamerFacts.get_media_new_name_and_path_label _ (TVEpisode e2) _ _ _ _ eq_refl).
    intros [= <- _] [= H _]. apply app_inv_tail in H.
    rewrite !app_nil_l in H. symmetry in H. by apply episode_label_inj in H.
  - intros s1 s2 n d1 d2.
    rewrite (NamerFacts.get_media_new_name_and_path_label _ (TVSeason s1) _ _ _ _ eq_refl).
    rewrite (NamerFacts.get_media_new_name_and_path_label _ (TVSeason s2) _ _ _ _ eq_refl).
    intros [= <- _] [= H _]. apply app_inv_tail in H.
    rewrite !app_nil_l in H. symmetry. by apply format_02d_inj.
Qed.

End NameShape.
End NamerMore.

(** ** The host rewrite: what reaches the rewritten URL *)

Module UrlMore.
Import Str StrFacts Url UrlFacts.

Lemma prefix_iff s t : String.prefix s t = true ↔ ∃ r, t = s +:+ r.
Proof.
  split.
  - revert t. induction s as [|c s IH]; intros t; [by exists t|].
    destruct t as [|d t]; [done|]. cbn.
    destruct (ascii_dec c d) as [->|]; [|done].
    intros (r & ->)%IH. by exists r.
  - intros (r & ->). apply prefix_app.
Qed.

Lemma scheme_no_colon sc :
  sc = "" ∨ scheme_wf sc → has (is_char ":") sc = false.
Proof.
  intros [->|(c0 & sc' & -> & _ & Hall & _)]; [done|].
  apply has_false_all. revert Hall. apply all_impl.
  intros c Hc. by rewrite scheme_char_no_colon.
Qed.

Lemma scheme_no p sc :
  (∀ c, is_scheme_char c = true → p c = false) →
  sc = "" ∨ scheme_wf sc → has p sc = false.
Proof.
  intros Hp [->|(c0 & sc' & -> & _ & Hall & _)]; [done|].
  apply has_false_all. revert Hall. apply all_impl.
  intros c Hc. by rewrite Hp.
Qed.

Lemma scheme_char_no_hash c : is_scheme_char c = true → is_char "#" c = false.
Proof. by_cases_on_ascii c. Qed.

Lemma int_char_no_hash c : is_int_char c = true → is_char "#" c = false.
Proof. by_cases_on_ascii c. Qed.

Section ParseMore.
Context (check_bracketed_host : string → bool) (nfkc_ok : string → bool).
Abbreviation urlparse := (urlparse check_bracketed_host nfkc_ok).
Abbreviation swap_jackett_host := (swap_jackett_host check_bracketed_host nfkc_ok).

(** What every parsed URL satisfies: the scheme is empty or well
    formed, no fragment or query mark is left in the path, no fragment
    mark in the query, and no removed character anywhere. *)
Lemma urlparse_parts u p :
  urlparse u = Some p →
  (scheme p = "" ∨ scheme_wf (scheme p))
  ∧ has (is_char "#") (path p) = false
  ∧ has (is_char "?") (path p) = false
  ∧ has is_unsafe (path p) = false
  ∧ has (is_char "#") (query p) = false
  ∧ has is_unsafe (query p) = false.
Proof.
  unfold Url.urlparse, Url.urlsplit.
  set (u1 := remove is_unsafe (lstrip is_c0_or_space u)).
  assert (has is_unsafe u1 = false) as Hu1 by apply has_remove.
  destruct (split_scheme u1) as [sc u2] eqn:H2.
  destruct (split_scheme_spec _ _ _ H2) as (Hsc & Hu2).
  destruct (split_netloc u2) as [nl u3] eqn:H3.
  pose proof (split_netloc_spec _ _ _ H3) as Hu3.
  destruct (negb (brackets_ok _ nl)); [done|].
  destruct (split_once "#" u3) as [u4 fr] eqn:H4.
  destruct (split_once_spec _ _ _ _ H4) as (Hfr & Hu4).
  destruct (split_once "?" u4) as [pa q] eqn:H5.
  destruct (split_once_spec _ _ _ _ H5) as (Hq & Hu5).
  destruct (negb (checknetloc _ nl)); [done|]. cbn [scheme path query].
  assert (has is_unsafe pa = false ∧ has is_unsafe q = false) as [Hpa_s Hq_s].
  { apply Hu5, Hu4, Hu3, Hu2, Hu1. }
  assert (has (is_char "#") pa = false ∧ has (is_char "#") q = false)
    as [Hpa_f Hq_f] by (by apply Hu5).
  destruct (bool_decide (sc ∈ uses_params) && has (is_char ";") pa).
  - destruct (splitparams pa) as [pa' ps] eqn:Hsp.
    destruct (splitparams_spec _ _ _ Hsp) as (_ & Hpa').
    intros [= <-]. cbn [scheme path query]. repeat split; auto.
  - intros [= <-]. cbn [scheme path query]. repeat split; auto.
Qed.

(** X5.  The rewritten URL is a magnet URL exactly when the scheme of
    the original is [magnet]: a magnet link given as the link is
    turned into [magnet://host:port?...], and no other link can look
    like a magnet after the rewrite. *)
Theorem swap_jackett_host_magnet u s p out :
  urlparse u = Some p → swap_jackett_host u s = Some out →
  Filter.is_magnet_url out = true ↔ scheme p = "magnet".
Proof.
  intros Hp. unfold Url.swap_jackett_host. rewrite Hp. intros [= <-].
  unfold Filter.is_magnet_url, startswith, format_url.
  destruct (urlparse_parts _ _ Hp) as (Hsc & _).
  split.
  - intros (r & Hr)%prefix_iff.
    pose proof (break_at_app (is_char ":") (scheme p)
                  (":" +:+ "//" +:+ jackett_host s +:+ ":" +:+ pretty (jackett_port s)
                     +:+ path p +:+ "?" +:+ query p)
                  (scheme_no_colon _ Hsc) eq_refl) as Hb.
    change (":" +:+ "//" +:+ ?x) with ("://" +:+ x) in Hb.
    rewrite Hr in Hb.
    change ("magnet:" +:+ r) with ("magnet" +:+ ":" +:+ r) in Hb.
    rewrite (break_at_app _ "magnet" (":" +:+ r)) in Hb by done.
    by injection Hb as <- _.
  - intros ->. apply prefix_iff. by eexists.
Qed.

(** X6.  The rewritten URL has a fragment mark, a tab, a carriage
    return or a line feed only if the configured host has one: the
    link never brings any into the URL that is requested. *)
Theorem swap_jackett_host_clean u s out :
  swap_jackett_host u s = Some out →
  (has (is_char "#") (jackett_host s) = false → has (is_char "#") out = false)
  ∧ (has is_unsafe (jackett_host s) = false → has is_unsafe out = false).
Proof.
  unfold Url.swap_jackett_host.
  destruct (urlparse u) as [p|] eqn:Hp; [|done]. intros [= <-].
  destruct (urlparse_parts _ _ Hp) as (Hsc & Hpf & _ & Hps & Hqf & Hqs).
  unfold format_url. split; intros Hhost; rewrite !has_app, Hhost.
  - rewrite Hpf, Hqf, (scheme_no _ _ scheme_char_no_hash Hsc).
    rewrite int_no by apply int_char_no_hash. done.
  - rewrite Hps, Hqs, (scheme_no _ _ scheme_char_safe Hsc).
    rewrite int_no by (intros c Hc; by apply int_char_plain). done.
Qed.

End ParseMore.

Lemma swap_jackett_host_magnet_witness :
  Filter.is_magnet_url "magnet://jackett:9117?xt=urn:btih:abc" = true
  ↔ "magnet" = "magnet".
Proof.
  apply (swap_jackett_host_magnet pass pass "magnet:?xt=urn:btih:abc" jackett
           (mkParseResult "magnet" "" "" "" "xt=urn:btih:abc" "") _ eq_refl eq_refl).
Defined.

Lemma swap_jackett_host_clean_witness :
  has (is_char "#") "http://jackett:9117/dl/a.torrent?k=1" = false
  ∧ has is_unsafe "http://jackett:9117/dl/a.torrent?k=1" = false.
Proof.
  destruct (swap_jackett_host_clean pass pass
              ("http://tracker.example/dl/" +:+ String "010" "a.torrent?k=1#top")
              jackett "http://jackett:9117/dl/a.torrent?k=1" eq_refl) as [H1 H2].
  split; [by apply H1|by apply H2].
Defined.

End UrlMore.

(** ** The resolver and the filter: outcomes, provenance, composition *)

Module FilterMore.
Import Str StrFacts Filter FilterFacts.

(** Whether a call returned. *)
Definition returned {A} (r : res A) : bool :=
  match r with Ok _ => true | Raise _ => false end.

Section FilterMore.
Context (server : list string → string → outcome).
Context (check_bracketed_host : string → bool) (nfkc_ok : string → bool).
Abbreviation trace_torrent_url := (trace_torrent_url server).
Abbreviation swap_jackett_host := (swap_jackett_host check_bracketed_host nfkc_ok).
Abbreviation resolve := (resolve server check_bracketed_host nfkc_ok).
Abbreviation annotate := (annotate server check_bracketed_host nfkc_ok).
Abbreviation filter_loop := (filter_loop server check_bracketed_host nfkc_ok).
Abbreviation results_with_valid_urls :=
  (results_with_valid_urls server check_bracketed_host nfkc_ok).
Abbreviation request_of := (request_of check_bracketed_host nfkc_ok).
Abbreviation requests_for := (requests_for check_bracketed_host nfkc_ok).
Abbreviation url_swap := (Url.swap_jackett_host check_bracketed_host nfkc_ok).
Abbreviation urlparse := (Url.urlparse check_bracketed_host nfkc_ok).

(** X7.  [trace_torrent_url] never touches the result objects and
    requests the URL exactly once, or not at all when it is a magnet
    URL.  When it returns, the value is the URL itself or the magnet
    [Location] of a redirect answered without error status.  When it
    raises, the request failed, or the answer had a status from 400 to
    599 and the exception carries its body; it raises nothing else. *)
Theorem trace_torrent_url_outcome url w :
  objects (snd (trace_torrent_url url w)) = objects w
  ∧ requested (snd (trace_torrent_url url w))
    = requested w ++ (if is_magnet_url url then [] else [url])
  ∧ match fst (trace_torrent_url url w) with
    | Ok u =>
        u = url
        ∨ (is_magnet_url url = false ∧ is_magnet_url u = true
           ∧ ∃ r, server (requested w) url = Answered r ∧ ok r = true
                  ∧ is_redirect r = true ∧ location r = Some u)
    | Raise e =>
        is_magnet_url url = false
        ∧ ((server (requested w) url = Failed ∧ e = RequestException)
           ∨ ∃ r, server (requested w) url = Answered r ∧ ok r = false
                  ∧ e = Exception (content r))
    end.
Proof.
  unfold Filter.trace_torrent_url.
  destruct (is_magnet_url url) eqn:Hm.
  - cbn. rewrite List.app_nil_r. auto.
  - unfold bind, Filter.requests_get.
    destruct (server (requested w) url) as [|r] eqn:Hsrv;
      [cbn; repeat split; auto|].
    destruct (ok r) eqn:Hok; cbn [negb].
    + destruct (is_redirect r) eqn:Hred; [|cbn; auto].
      pose proof Hred as Hred'. unfold is_redirect in Hred'.
      destruct (location r) as [target|] eqn:Hloc; [|done].
      destruct (is_magnet_url target) eqn:Ht; cbn; [|auto].
      split; [done|]. split; [done|]. right.
      repeat split; try done. by exists r.
    + cbn. split; [done|]. split; [done|]. split; [done|]. right. by exists r.
Qed.

(** Where a [torrent_url] can come from, given the record it is
    stored in: a non-empty [MagnetUri] is stored as it is; otherwise
    the link is rewritten, and the rewritten link or a magnet URL is
    stored. *)
Definition provenance (s : Url.NefariousSettings) (r : result) (u : string) : Prop :=
  match MagnetUri r with
  | Some (String c m) => u = String c m
  | _ => ∃ url, url_swap (Link r) s = Some url ∧ (u = url ∨ is_magnet_url u = true)
  end.

Lemma fallthrough_provenance l s w u w1 :
  (let* url := swap_jackett_host (Link (objects w l)) s in trace_torrent_url url) w
  = (Ok u, w1) →
  ∃ url, url_swap (Link (objects w l)) s = Some url
         ∧ (u = url ∨ is_magnet_url u = true).
Proof.
  unfold bind, Filter.swap_jackett_host.
  destruct (url_swap (Link (objects w l)) s) as [url|]; [|done].
  unfold ret. intros (_ & _ & Hu)%trace_torrent_url_spec.
  exists url. split; [done|]. by apply Hu.
Qed.

Lemma resolve_provenance l s w u w1 :
  resolve l s w = (Ok u, w1) → provenance s (objects w l) u.
Proof.
  unfold Filter.resolve, provenance. unfold bind at 1. unfold read at 1.
  destruct (MagnetUri (objects w l)) as [[|c m]|].
  - unfold bind at 1. unfold read. apply fallthrough_provenance.
  - by intros [= <- _].
  - unfold bind at 1. unfold read. apply fallthrough_provenance.
Qed.

Lemma provenance_with_torrent_url s u' r u :
  provenance s (with_torrent_url u' r) u ↔ provenance s r u.
Proof. done. Qed.

Lemma provenance_alter s u' l (h : heap) l' u :
  provenance s (alter (with_torrent_url u') l h l') u ↔ provenance s (h l') u.
Proof.
  destruct (decide (l = l')) as [->|Hne].
  - by rewrite fn_lookup_alter.
  - by rewrite fn_lookup_alter_ne.
Qed.

(** One successful candidate: its object gets a [torrent_url] of the
    right provenance. *)
Lemma annotate_provenance l s w w1 :
  annotate l s w = (Ok tt, w1) →
  ∃ u, provenance s (objects w l) u
       ∧ objects w1 = alter (with_torrent_url u) l (objects w).
Proof.
  unfold Filter.annotate, bind.
  destruct (resolve l s w) as [[u|e] w0] eqn:Hres; [|done].
  destruct (resolve_spec _ _ _ _ _ _ _ _ Hres) as (Ho & _).
  unfold assign_torrent_url. intros [= <-]. cbn [objects].
  exists u. rewrite Ho. split; [|done]. by apply (resolve_provenance _ _ _ _ _ Hres).
Qed.

(** The loop keeps the provenance of every survivor's [torrent_url]. *)
Lemma filter_loop_provenance results s acc w :
  ∃ out w', filter_loop results s acc w = (Ok (acc ++ out), w')
    ∧ ∀ l, l ∈ out →
        ∃ u, provenance s (objects w l) u
             ∧ objects w' l = with_torrent_url u (objects w l).
Proof.
  revert acc w. induction results as [|l results IH]; intros acc w.
  - exists [], w. cbn. rewrite List.app_nil_r. split; [done|].
    intros l Hl. by apply elem_of_nil in Hl.
  - cbn [Filter.filter_loop]. unfold bind at 1. unfold try.
    destruct (annotate l s w) as [[[]|e] w1] eqn:Hann.
    + destruct (annotate_provenance _ _ _ _ Hann) as (u & Hu & Hobj).
      destruct (filter_loop_spec server check_bracketed_host nfkc_ok
                  results s (acc ++ [l]) w1)
        as (out & w' & Hrun & _ & _ & Hout & _).
      destruct (IH (acc ++ [l]) w1) as (out2 & w2 & Hrun2 & Hin).
      rewrite Hrun in Hrun2. injection Hrun2 as Heq <-.
      apply app_inv_head in Heq as <-.
      exists (l :: out), w'. split; [by rewrite Hrun, <- List.app_assoc|].
      intros l' Hl'. destruct (decide (l' ∈ out)) as [Hmem|Hno].
      * destruct (Hin l' Hmem) as (u' & Hu' & ->). exists u'.
        rewrite Hobj in *. apply provenance_alter in Hu'. split; [done|].
        destruct (decide (l = l')) as [->|Hne].
        -- by rewrite fn_lookup_alter.
        -- by rewrite fn_lookup_alter_ne.
      * apply elem_of_cons in Hl' as [->|?]; [|done].
        exists u. split; [done|]. rewrite Hout, Hobj by done.
        by rewrite fn_lookup_alter.
    + destruct (annotate_spec _ _ _ _ _ _ _ _ Hann) as (_ & Hobj).
      destruct (IH acc w1) as (out & w' & Hrun & Hin).
      exists out, w'. split; [done|]. by rewrite Hobj in Hin.
Qed.

(** X8.  Every [torrent_url] the filter leaves on a survivor comes
    from that result's own record: it is the record's non-empty
    [MagnetUri]; or, the [MagnetUri] being empty, it is the link
    rewritten to the configured host or a magnet URL the indexer
    redirected to. *)
Theorem torrent_url_provenance results s w :
  ∃ out w', results_with_valid_urls results s w = (Ok out, w')
    ∧ ∀ l, l ∈ out →
        ∃ u, torrent_url (objects w' l) = Some u ∧ provenance s (objects w l) u.
Proof.
  destruct (filter_loop_provenance results s [] w) as (out & w' & Hrun & Hin).
  exists out, w'. split; [done|]. intros l Hl.
  destruct (Hin l Hl) as (u & Hu & ->). by exists u.
Qed.

(** *** Composition *)

(** The accumulator only collects: starting from [acc] gives what
    starting from the empty list gives, after [acc]. *)
Lemma filter_loop_acc results s acc w :
  filter_loop results s acc w
  = (match fst (filter_loop results s [] w) with
     | Ok out => Ok (acc ++ out)
     | Raise e => Raise e
     end, snd (filter_loop results s [] w)).
Proof.
  revert acc w. induction results as [|l results IH]; intros acc w.
  - cbn. by rewrite List.app_nil_r.
  - cbn [Filter.filter_loop]. unfold bind, try.
    destruct (annotate l s w) as [[[]|e] w1]; [|apply IH].
    rewrite (IH (acc ++ [l])), (IH ([] ++ [l])). cbn [fst snd].
    destruct (fst (filter_loop results s [] w1)); [|done].
    by rewrite <- List.app_assoc.
Qed.

Lemma filter_loop_app l1 l2 s acc w :
  filter_loop (l1 ++ l2) s acc w
  = match filter_loop l1 s acc w with
    | (Ok out1, w1) => filter_loop l2 s out1 w1
    | (Raise e, w1) => (Raise e, w1)
    end.
Proof.
  revert acc w. induction l1 as [|l l1 IH]; intros acc w; [done|].
  rewrite <- app_comm_cons. cbn [Filter.filter_loop]. unfold bind, try.
  destruct (annotate l s w) as [[[]|e] w1]; apply IH.
Qed.

(** X9.  Filtering a concatenation is filtering the first part and
    then, in the world the first run leaves, the second part: the
    survivors of the two runs, in that order. *)
Theorem results_with_valid_urls_app l1 l2 s w :
  ∃ out1 w1 out2 w2,
    results_with_valid_urls l1 s w = (Ok out1, w1)
    ∧ results_with_valid_urls l2 s w1 = (Ok out2, w2)
    ∧ results_with_valid_urls (l1 ++ l2) s w = (Ok (out1 ++ out2), w2).
Proof.
  destruct (filter_loop_spec server check_bracketed_host nfkc_ok l1 s [] w)
    as (out1 & w1 & H1 & _).
  destruct (filter_loop_spec server check_bracketed_host nfkc_ok l2 s [] w1)
    as (out2 & w2 & H2 & _).
  exists out1, w1, out2, w2. split; [done|]. split; [done|].
  unfold Filter.results_with_valid_urls in *.
  rewrite filter_loop_app, H1. cbn [app].
  rewrite filter_loop_acc, H2. done.
Qed.

(** *** Which candidates survive *)

(** Whether a record survives against a network that answers a URL
    the same way whatever was requested before: a non-empty magnet
    always does; otherwise the link must parse, and the rewritten link
    must be a magnet URL or be answered without error status. *)
Definition survives (srv : string → outcome) (s : Url.NefariousSettings)
    (r : result) : bool :=
  match MagnetUri r with
  | Some (String _ _) => true
  | _ =>
      match url_swap (Link r) s with
      | None => false
      | Some url =>
          is_magnet_url url
          || match srv url with Failed => false | Answered resp => ok resp end
      end
  end.

Lemma trace_returned url w :
  returned (fst (trace_torrent_url url w))
  = is_magnet_url url
    || match server (requested w) url with
       | Failed => false
       | Answered resp => ok resp
       end.
Proof.
  unfold Filter.trace_torrent_url. destruct (is_magnet_url url); [done|].
  unfold bind, Filter.requests_get.
  destruct (server (requested w) url) as [|r]; [done|].
  destruct (ok r); [|done]. cbn [negb orb].
  unfold is_redirect. destruct (location r) as [target|]; [|done].
  destruct (bool_decide _); [|done]. by destruct (is_magnet_url target).
Qed.

Section Stateless.
Context (srv : string → outcome).
Hypothesis server_stateless : ∀ history url, server history url = srv url.

Lemma annotate_returned l s w :
  returned (fst (annotate l s w)) = survives srv s (objects w l).
Proof.
  unfold Filter.annotate, Filter.resolve, survives.
  unfold bind at 1 2. unfold read at 1.
  destruct (MagnetUri (objects w l)) as [[|c m]|].
  2: done.
  all: unfold bind at 1 2; unfold read, Filter.swap_jackett_host;
    destruct (url_swap (Link (objects w l)) s) as [url|]; [|done];
    unfold ret;
    pose proof (trace_returned url w) as Ht;
    rewrite server_stateless in Ht; rewrite <- Ht;
    by destruct (trace_torrent_url url w) as [[?|?] ?].
Qed.

Lemma survives_alter s u l (h : heap) l' :
  survives srv s (alter (with_torrent_url u) l h l') = survives srv s (h l').
Proof.
  destruct (decide (l = l')) as [->|Hne].
  - by rewrite fn_lookup_alter.
  - by rewrite fn_lookup_alter_ne.
Qed.

Lemma filter_loop_stateless results s acc w :
  fst (filter_loop results s acc w)
  = Ok (acc ++ List.filter (λ l, survives srv s (objects w l)) results).
Proof.
  revert acc w. induction results as [|l results IH]; intros acc w.
  - cbn. by rewrite List.app_nil_r.
  - cbn [Filter.filter_loop List.filter]. unfold bind at 1. unfold try.
    pose proof (annotate_returned l s w) as Hret.
    destruct (annotate l s w) as [[[]|e] w1] eqn:Hann; cbn in Hret; rewrite <- Hret.
    + destruct (annotate_spec _ _ _ _ _ _ _ _ Hann) as (_ & u & _ & Hobj).
      rewrite IH, Hobj, <- List.app_assoc. do 2 f_equal. cbn [app]. f_equal.
      apply List.filter_ext. intros l'. apply survives_alter.
    + destruct (annotate_spec _ _ _ _ _ _ _ _ Hann) as (_ & Hobj).
      by rewrite IH, Hobj.
Qed.

(** X10.  Against a network whose answer to a URL does not depend on
    the requests made before, the filter is a filter: its output is
    the list of the input candidates that survive, where the survival
    of a candidate is decided by its own record alone. *)
Theorem results_with_valid_urls_stateless results s w :
  fst (results_with_valid_urls results s w)
  = Ok (List.filter (λ l, survives srv s (objects w l)) results).
Proof. apply (filter_loop_stateless results s []). Qed.

End Stateless.

(** *** Magnets *)

Lemma annotate_magnet l s w c m :
  MagnetUri (objects w l) = Some (String c m) →
  annotate l s w
  = (Ok tt, mkWorld (alter (with_torrent_url (String c m)) l (objects w))
              (requested w)).
Proof.
  intros Hm. unfold Filter.annotate, Filter.resolve, bind, read. by rewrite Hm.
Qed.

Lemma magnet_alter u l (h : heap) l' :
  MagnetUri (alter (with_torrent_url u) l h l') = MagnetUri (h l').
Proof.
  destruct (decide (l = l')) as [->|Hne].
  - by rewrite fn_lookup_alter.
  - by rewrite fn_lookup_alter_ne.
Qed.

Lemma filter_loop_all_magnets results s acc w :
  (∀ l, l ∈ results → ∃ c m, MagnetUri (objects w l) = Some (String c m)) →
  fst (filter_loop results s acc w) = Ok (acc ++ results).
Proof.
  revert acc w. induction results as [|l results IH]; intros acc w Hmag.
  - cbn. by rewrite List.app_nil_r.
  - destruct (Hmag l) as (c & m & Hl); [by left|].
    cbn [Filter.filter_loop]. unfold bind, try.
    rewrite (annotate_magnet _ _ _ _ _ Hl).
    rewrite IH; [by rewrite <- List.app_assoc|].
    intros l' Hl'. cbn [objects]. rewrite magnet_alter. apply Hmag. by right.
Qed.

(** X11.  When every candidate has a non-empty [MagnetUri], the
    filter keeps them all, in order, makes no request at all, and
    stores each candidate's own [MagnetUri] as its [torrent_url]. *)
Theorem results_with_valid_urls_all_magnets results s w :
  (∀ l, l ∈ results → ∃ c m, MagnetUri (objects w l) = Some (String c m)) →
  ∃ w', results_with_valid_urls results s w = (Ok results, w')
    ∧ requested w' = requested w
    ∧ ∀ l, l ∈ results → torrent_url (objects w' l) = MagnetUri (objects w l).
Proof.
  intros Hmag.
  destruct (filter_loop_spec server check_bracketed_host nfkc_ok results s [] w)
    as (out & w' & Hrun & _ & Hreq & _).
  destruct (filter_loop_provenance results s [] w) as (out2 & w2 & Hrun2 & Hprov).
  rewrite Hrun in Hrun2. injection Hrun2 as <- <-.
  pose proof (filter_loop_all_magnets results s [] w Hmag) as Hout.
  rewrite Hrun in Hout. injection Hout as ->.
  exists w'. split; [done|]. split.
  - rewrite Hreq. rewrite <- (List.app_nil_r (requested w)) at 2. f_equal.
    clear -Hmag. unfold FilterFacts.requests_for.
    induction results as [|l results IH]; [done|]. cbn.
    destruct (Hmag l) as (c & m & Hl); [by left|].
    unfold FilterFacts.request_of at 1. rewrite Hl. apply IH.
    intros l' Hl'. apply Hmag. by right.
  - intros l Hl. destruct (Hprov l Hl) as (u & Hu & ->).
    destruct (Hmag l Hl) as (c & m & Hm). unfold provenance in Hu.
    rewrite Hm in Hu. cbn. by rewrite Hm, Hu.
Qed.

(** X12.  A link that is itself a magnet link, in a record whose
    [MagnetUri] is empty, is not kept as it is: it resolves, without
    any request, to the rewrite [magnet://host:port], its path, [?]
    and its query. *)
Theorem magnet_link_rewritten l s w p :
  MagnetUri (objects w l) = None ∨ MagnetUri (objects w l) = Some "" →
  urlparse (Link (objects w l)) = Some p → Url.scheme p = "magnet" →
  resolve l s w
  = (Ok ("magnet://" +:+ Url.jackett_host s +:+ ":" +:+ pretty (Url.jackett_port s)
           +:+ Url.path p +:+ "?" +:+ Url.query p), w).
Proof.
  intros Hm Hp Hsc.
  unfold Filter.resolve. unfold bind at 1. unfold read at 1.
  assert ((let* url := swap_jackett_host (Link (objects w l)) s in
           trace_torrent_url url) w
          = (Ok ("magnet://" +:+ Url.jackett_host s +:+ ":"
                   +:+ pretty (Url.jackett_port s) +:+ Url.path p +:+ "?"
                   +:+ Url.query p), w)) as Hfall.
  { unfold bind, Filter.swap_jackett_host, Url.swap_jackett_host.
    rewrite Hp, Hsc. unfold ret, Url.format_url, Filter.trace_torrent_url.
    change ("magnet" +:+ "://" +:+ ?x) with ("magnet:" +:+ "//" +:+ x).
    unfold is_magnet_url, startswith. by rewrite prefix_app. }
  destruct Hm as [-> | ->]; unfold bind at 1; unfold read at 1; exact Hfall.
Qed.

(** *** Requests *)

(** X13.  Every request of a run goes to the configured host: each
    requested URL is the rewrite of the link of one of the candidates,
    [scheme://host:port], path, [?] and query, and is not a magnet
    URL; when that link has a scheme and a rooted path and the
    configured host is plain, the netloc of the requested URL is
    [host:port]. *)
Theorem requests_go_to_configured_host results s w :
  ∃ out w' reqs,
    results_with_valid_urls results s w = (Ok out, w')
    ∧ requested w' = requested w ++ reqs
    ∧ ∀ url, url ∈ reqs →
        ∃ l p, l ∈ results
          ∧ urlparse (Link (objects w l)) = Some p
          ∧ url = Url.scheme p +:+ "://" +:+ Url.jackett_host s +:+ ":"
                    +:+ pretty (Url.jackett_port s) +:+ Url.path p +:+ "?"
                    +:+ Url.query p
          ∧ is_magnet_url url = false
          ∧ (Url.scheme p ≠ "" → Url.rooted (Url.path p) = true →
             Url.plain_host check_bracketed_host nfkc_ok s = true →
             ∃ q, urlparse url = Some q ∧ Url.netloc q = Url.netloc_of s).
Proof.
  destruct (filter_loop_spec server check_bracketed_host nfkc_ok results s [] w)
    as (out & w' & Hrun & _ & Hreq & _).
  exists out, w', (requests_for s (objects w) results).
  split; [done|]. split; [done|].
  intros url (l & Hl & Hurl)%list_elem_of_omap. unfold FilterFacts.request_of in Hurl.
  assert (∃ p, urlparse (Link (objects w l)) = Some p
               ∧ url_swap (Link (objects w l)) s = Some url
               ∧ is_magnet_url url = false) as (p & Hp & Hswap & Hmag).
  { destruct (MagnetUri (objects w l)) as [[|??]|]; [|done|];
      destruct (url_swap (Link (objects w l)) s) as [url'|] eqn:Hs; try done;
      destruct (is_magnet_url url') eqn:Hm; try done;
      injection Hurl as <-;
      unfold Url.swap_jackett_host in Hs;
      destruct (urlparse (Link (objects w l))) as [p|] eqn:Hp; try done;
      exists p; repeat split; try done;
      unfold Url.swap_jackett_host; by rewrite Hp. }
  exists l, p. split; [done|]. split; [done|].
  assert (url = Url.format_url (Url.scheme p) (Url.jackett_host s)
                  (Url.jackett_port s) (Url.path p) (Url.query p)) as Hfmt.
  { unfold Url.swap_jackett_host in Hswap. rewrite Hp in Hswap. by injection Hswap. }
  split; [done|]. split; [done|].
  intros Hsc Hroot Hhost.
  destruct (UrlFacts.swap_then_parse _ _ _ _ _ Hp Hsc Hroot Hhost)
    as (out' & Hout' & Hparse).
  rewrite Hswap in Hout'. injection Hout' as <-. by eexists.
Qed.

(** *** Filtering, then ranking *)

(** X14.  Ranking the survivors of the filter by their seeders: there
    is no winner exactly when no candidate survived; otherwise the
    winner is one of the input candidates, carries a non-empty
    [torrent_url], and no survivor had more seeders, counted on the
    records as they were before the run. *)
Theorem best_of_valid_results results s w :
  ∃ out w',
    results_with_valid_urls results s w = (Ok out, w')
    ∧ match Ranker.get_best_torrent_result (λ l, Seeders (objects w' l)) out with
      | None => out = []
      | Some best =>
          best ∈ results
          ∧ (∃ u, torrent_url (objects w' best) = Some u ∧ u ≠ "")
          ∧ ∀ l, l ∈ out → Seeders (objects w l) <= Seeders (objects w best)
      end.
Proof.
  destruct (filter_loop_spec server check_bracketed_host nfkc_ok results s [] w)
    as (out & w' & Hrun & Hsub & _ & Hout & Hin).
  exists out, w'. split; [done|].
  assert (∀ l, Seeders (objects w' l) = Seeders (objects w l)) as Hseed.
  { intros l. destruct (decide (l ∈ out)) as [Hl|Hl].
    - by destruct (Hin l Hl) as (u & _ & ->).
    - by rewrite Hout. }
  destruct (Ranker.get_best_torrent_result _ out) as [best|] eqn:Hbest;
    [|by destruct out].
  destruct (RankerMore.get_best_first_max _ _ _ Hbest) as (i & Hi & Hmax & _).
  assert (best ∈ out) as Hbo by (apply list_elem_of_lookup; eauto).
  split; [by apply (sublist_subseteq _ _ Hsub)|]. split.
  - destruct (Hin best Hbo) as (u & Hu & ->). by exists u.
  - intros l Hl. specialize (Hmax l Hl). cbn in Hmax. by rewrite !Hseed in Hmax.
Qed.

(** *** Filtering again *)

Lemma filter_all_true {A} (f : A → bool) (l : list A) :
  (∀ x, In x l → f x = true) → List.filter f l = l.
Proof.
  induction l as [|x l IH]; [done|]. intros Hall. cbn [List.filter].
  rewrite (Hall x) by (by left). f_equal. apply IH. intros y Hy. apply Hall. by right.
Qed.

(** X15.  Against a network whose answers do not depend on earlier
    requests, filtering the output of the filter again, in the world
    the first run leaves, keeps every element: candidates that were
    valid stay valid although they now carry a [torrent_url]. *)
Theorem results_with_valid_urls_idempotent (srv : string → outcome) results s w :
  (∀ history url, server history url = srv url) →
  ∃ out w', results_with_valid_urls results s w = (Ok out, w')
    ∧ fst (results_with_valid_urls out s w') = Ok out.
Proof.
  intros Hsrv.
  destruct (filter_loop_spec server check_bracketed_host nfkc_ok results s [] w)
    as (out & w' & Hrun & _ & _ & Hout & Hin).
  exists out, w'. split; [done|].
  pose proof (filter_loop_stateless srv Hsrv results s [] w) as H1.
  rewrite Hrun in H1. injection H1 as H1. cbn [app] in H1.
  unfold Filter.results_with_valid_urls.
  rewrite (filter_loop_stateless srv Hsrv out s [] w'). cbn [app]. f_equal.
  apply filter_all_true. intros l Hl.
  assert (survives srv s (objects w' l) = survives srv s (objects w l)) as ->.
  { destruct (decide (l ∈ out)) as [Hm|Hm].
    - by destruct (Hin l Hm) as (u & _ & ->).
    - by rewrite Hout. }
  rewrite H1 in Hl. by apply List.filter_In in Hl as [_ ?].
Qed.

End FilterMore.

Lemma results_with_valid_urls_stateless_witness :
  fst example_run
  = Ok (List.filter
          (λ l, survives UrlFacts.pass UrlFacts.pass (example_server [])
                  UrlFacts.jackett (example_heap l))
          [0; 1; 2; 3; 4; 0]%nat).
Proof.
  apply (results_with_valid_urls_stateless example_server UrlFacts.pass UrlFacts.pass
           (example_server []) (λ _ _, eq_refl)).
Defined.

Lemma results_with_valid_urls_all_magnets_witness :
  ∃ w', Filter.results_with_valid_urls example_server UrlFacts.pass UrlFacts.pass
          [3; 3]%nat UrlFacts.jackett example_world
        = (Ok [3; 3]%nat, w')
    ∧ requested w' = []
    ∧ ∀ l, l ∈ [3; 3]%nat →
        torrent_url (objects w' l) = Some "magnet:?xt=urn:btih:d".
Proof.
  destruct (results_with_valid_urls_all_magnets example_server UrlFacts.pass
              UrlFacts.pass [3; 3]%nat UrlFacts.jackett example_world)
    as (w' & Hrun & Hreq & Hurl).
  - intros l Hl. assert (l = 3%nat) as ->
      by (apply elem_of_cons in Hl as [?|Hl];
          [done|by apply list_elem_of_singleton in Hl]). by eexists _, _.
  - exists w'. split; [done|]. split; [done|].
    intros l Hl. rewrite (Hurl l Hl).
    assert (l = 3%nat) as ->
      by (apply elem_of_cons in Hl as [?|Hl];
          [done|by apply list_elem_of_singleton in Hl]). done.
Defined.

(** A record whose link is a magnet link and whose [MagnetUri] is
    empty. *)
Definition magnet_link_world : world :=
  mkWorld (λ _, mkResult "M" "magnet:?xt=urn:btih:abc" (Some "") 3 None) [].

Lemma magnet_link_rewritten_witness :
  Filter.resolve example_server UrlFacts.pass UrlFacts.pass 0%nat UrlFacts.jackett
    magnet_link_world
  = (Ok "magnet://jackett:9117?xt=urn:btih:abc", magnet_link_world).
Proof.
  apply (magnet_link_rewritten example_server UrlFacts.pass UrlFacts.pass
           0%nat UrlFacts.jackett magnet_link_world
           (Url.mkParseResult "magnet" "" "" "" "xt=urn:btih:abc" "")
           (or_intror eq_refl) eq_refl eq_refl).
Defined.

Lemma results_with_valid_urls_idempotent_witness :
  ∃ out w',
    Filter.results_with_valid_urls example_server UrlFacts.pass UrlFacts.pass
      [0; 1; 2; 3; 4; 0]%nat UrlFacts.jackett example_world = (Ok out, w')
    ∧ fst (Filter.results_with_valid_urls example_server UrlFacts.pass UrlFacts.pass
             out UrlFacts.jackett w') = Ok out.
Proof.
  apply (results_with_valid_urls_idempotent example_server UrlFacts.pass UrlFacts.pass
           (example_server []) [0; 1; 2; 3; 4; 0]%nat UrlFacts.jackett example_world
           (λ _ _, eq_refl)).
Defined.

End FilterMore.
